(** * shinchan-go: the toy TCP responder and the sales-ratio example

    A shallow embedding of two programs of the repository:

    - the blocking-accept TCP responder ([doSomething] and [main] of the
      server package), modelled as interaction trees over the calls the
      code makes on its environment (the [net], [log], [slog] and [fmt]
      packages and the [go] statement), run by a small scheduler;
    - [calculateSalesRatio] of the mocking package with its [ShopModel]
      interface, modelled as a pure function whose outcome is either a
      returned pair or a runtime panic. *)

From Stdlib Require Import ZArith List String Ascii Bool Lia.
From Stdlib Require Import Decimal DecimalString DecimalZ DecimalPos.
From ITree Require Import ITree.
Import ListNotations.
Import ITreeNotations.

Local Open Scope string_scope.
Local Open Scope Z_scope.

(** ** Go values shared by both packages *)

Module Go.

(** Go's [int] on the 64-bit targets: a [Z] kept in [-2^63, 2^63) by
    wrap-around. *)
Definition int := Z.

Definition minInt : Z := - 2 ^ 63.
Definition maxInt : Z := 2 ^ 63 - 1.

Definition wrap (z : Z) : int := (z + 2 ^ 63) mod 2 ^ 64 - 2 ^ 63.

(** The [error] interface, with the two extra methods of [net.Error] that
    the [net] package's errors carry. [nil] is [None] of [option error]. *)
Record error : Type := mkError {
  Error : string;
  Temporary : bool
}.

(** [strconv.Itoa]: the decimal digits of [n], with a leading minus sign
    for negative numbers. *)
Definition Itoa (n : int) : string := NilZero.string_of_int (Z.to_int n).

(** [strconv.Atoi], used here only to read a logged count back. *)
Definition Atoi (s : string) : option int :=
  option_map Z.of_int (NilZero.int_of_string s).

(** [[]byte(s)] *)
Definition bytes (s : string) : list Byte.byte := list_byte_of_string s.

Definition CR : ascii := "013"%char.
Definition LF : ascii := "010"%char.
Definition CRLF : string := String CR (String LF EmptyString).

End Go.

Import Go.

(** ** The TCP responder *)

Module Server.

Local Open Scope itree_scope.

(** A [net.Conn] and a [net.Listener] are handles on sockets that the
    operating system owns; the program only passes them around. *)
Definition Conn := nat.
Definition Listener := nat.

(** Attribute values that the program hands to [slog.Info]. *)
Inductive Value : Type :=
| VListener (l : Listener)
| VConn (c : Conn).

(** The calls the program makes on its environment, indexed by the type
    of what the call returns. A call that returns [(x, err)] with [x]
    meaningless when [err != nil] answers with a sum; [Read] and [Write]
    answer with the pair, both components being meaningful together.
    [Fatalf] answers in [void]: [log.Fatalf] prints and calls
    [os.Exit(1)], so nothing runs after it. *)
Variant E : Type -> Type :=
| Print (s : string) : E unit
| Listen (network address : string) : E (Listener + error)
| Accept (l : Listener) : E (Conn + error)
| Read (c : Conn) (len : nat) : E (int * option error)
| Write (c : Conn) (p : list Byte.byte) : E (int * option error)
| Close (c : Conn) : E (option error)
| Info (msg : string) (args : list (string * Value)) : E unit
| Fatalf (format : string) : E void
| Go (c : Conn) : E unit.

Definition fatalf {R : Type} (format : string) : itree E R :=
  Vis (Fatalf format) (fun v : void => match v with end).

(** The response of the server, [[]byte("HTTP/1.1 200 OK\r\n\r\nHello, World\r\n")]. *)
Definition response : list Byte.byte :=
  bytes ("HTTP/1.1 200 OK" ++ CRLF ++ CRLF ++ "Hello, World" ++ CRLF).

Definition doSomething (conn : Conn) : itree E unit :=
  '(n, err) <- ITree.trigger (Read conn 1024);;
  match err with
  | Some e => fatalf ("error reading. error: %v" ++ Error e)
  | None => Ret tt
  end;;
  ITree.trigger (Info ("number of bytes" ++ Itoa n) []);;
  ITree.trigger (Write conn response);;
  ITree.trigger (Close conn);;
  Ret tt.

(** One iteration of the accept loop of [main]; [go doSomething(conn)] is
    the call [Go conn]. *)
Definition accept_once (listener : Listener) : itree E unit :=
  r <- ITree.trigger (Accept listener);;
  match r with
  | inr err => fatalf ("unable to get listener. error: %v" ++ Error err)
  | inl conn =>
      ITree.trigger (Info "connection waiting for accept. " [("conn", VConn conn)]);;
      ITree.trigger (Go conn)
  end.

(** The [for] loop of [main] with the statement after it, which no run
    reaches. *)
Definition accept_loop (listener : Listener) : itree E unit :=
  (ITree.forever (accept_once listener) : itree E void);;
  fatalf "server clossed".

Definition main : itree E unit :=
  ITree.trigger (Print "Server starting");;
  r <- ITree.trigger (Listen "tcp" ":8080");;
  match r with
  | inr err => fatalf ("unable to get listener. error: %v" ++ Error err)
  | inl listener =>
      ITree.trigger (Info "Server listening" [("listner", VListener listener)]);;
      accept_loop listener
  end.

(** *** The environment and the scheduler *)

(** What the trace keeps of a call: the call with what it returned. *)
Inductive Call : Type :=
| CPrint (s : string)
| CListen (network address : string) (r : Listener + error)
| CAccept (l : Listener) (r : Conn + error)
| CRead (c : Conn) (len : nat) (n : int) (err : option error)
| CWrite (c : Conn) (p : list Byte.byte) (n : int) (err : option error)
| CClose (c : Conn) (err : option error)
| CInfo (msg : string) (args : list (string * Value))
| CFatalf (format : string)
| CGo (c : Conn).

(** The trace of a run, oldest call first, each with the goroutine that
    made it: 0 is [main], the handlers are numbered from 1 in the order
    of their [go] statements. *)
Definition Trace := list (nat * Call).

(** The environment decides what the network calls return; it may look at
    everything that happened so far. [arrives] gives the bytes of the
    peer that are there when [Read] returns, and the error of that read:
    [Read] copies at most [len] of them into the buffer. *)
Record Env : Type := mkEnv {
  listens : Trace -> string -> string -> Listener + error;
  accepts : Trace -> Listener -> Conn + error;
  arrives : Trace -> Conn -> list Byte.byte * option error;
  writes : Trace -> Conn -> list Byte.byte -> int * option error;
  closes : Trace -> Conn -> option error
}.

Definition respond (env : Env) (tr : Trace) {X : Type} (e : E X) : Call * option X :=
  match e in E X return Call * option X with
  | Print s => (CPrint s, Some tt)
  | Listen network address =>
      let r := listens env tr network address in (CListen network address r, Some r)
  | Accept l => let r := accepts env tr l in (CAccept l r, Some r)
  | Read c len =>
      let '(data, err) := arrives env tr c in
      let n := Z.of_nat (List.length (firstn len data)) in
      (CRead c len n err, Some (n, err))
  | Write c p => let '(n, err) := writes env tr c p in (CWrite c p n err, Some (n, err))
  | Close c => let err := closes env tr c in (CClose c err, Some err)
  | Info msg args => (CInfo msg args, Some tt)
  | Fatalf format => (CFatalf format, None)
  | Go c => (CGo c, Some tt)
  end.

Inductive Status : Type :=
| Running
| Exited (code : Z).

(** The process: its goroutines (a goroutine whose function returned stays
    in the list as [Ret tt]), the trace so far and whether it still runs. *)
Record Sys : Type := mkSys {
  goroutines : list (itree E unit);
  trace : Trace;
  status : Status
}.

Fixpoint set_nth {A : Type} (n : nat) (x : A) (l : list A) {struct l} : list A :=
  match l, n with
  | [], _ => []
  | _ :: l', O => x :: l'
  | y :: l', S n' => y :: set_nth n' x l'
  end.

(** [go doSomething(conn)] adds a goroutine. *)
Definition spawned {X : Type} (e : E X) : list (itree E unit) :=
  match e with
  | Go c => [doSomething c]
  | _ => []
  end.

(** One step of goroutine [g]: nothing when the process has exited or [g]
    has returned; the process exits with status 0 when [main] returns and
    with status 1 in [log.Fatalf]. *)
Definition step (env : Env) (g : nat) (s : Sys) : Sys :=
  match status s with
  | Exited _ => s
  | Running =>
      match nth_error (goroutines s) g with
      | None => s
      | Some t =>
          match observe t with
          | RetF _ =>
              match g with
              | O => mkSys (goroutines s) (trace s) (Exited 0)
              | S _ => s
              end
          | TauF t' => mkSys (set_nth g t' (goroutines s)) (trace s) Running
          | VisF e k =>
              let '(c, a) := respond env (trace s) e in
              let tr := (trace s ++ [(g, c)])%list in
              match a with
              | None => mkSys (goroutines s) tr (Exited 1)
              | Some x => mkSys (set_nth g (k x) (goroutines s) ++ spawned e)%list tr Running
              end
          end
      end
  end.

(** A schedule is the list of the goroutines that take the next steps. *)
Definition run (env : Env) (schedule : list nat) (s : Sys) : Sys :=
  fold_left (fun s g => step env g s) schedule s.

Definition boot : Sys := mkSys [main] [] Running.

(** The calls of one goroutine. *)
Definition calls_of (g : nat) (tr : Trace) : list Call :=
  map snd (filter (fun x => Nat.eqb (fst x) g) tr).

(** The connections handed to a handler by a [go] statement, in order:
    the one at index [g] is the connection of goroutine [S g]. *)
Definition go_conn (x : nat * Call) : list Conn :=
  match snd x with
  | CGo conn => [conn]
  | _ => []
  end.

Definition handed (tr : Trace) : list Conn := flat_map go_conn tr.

End Server.

(** * Program points

    A goroutine is an interaction tree, and the scheduler only ever looks
    at its next node. A program point is described by that node and by the
    program points that follow it, whatever the call returns. *)

Module Points.
Import Server.

Definition at_done (t : itree E unit) : Prop :=
  exists r, observe t = RetF r.

Definition at_fatal (format : string) (t : itree E unit) : Prop :=
  exists k, observe t = VisF (Fatalf format) k.

(** The points of [doSomething conn]. *)

Definition at_close (conn : Conn) (t : itree E unit) : Prop :=
  exists k, observe t = VisF (Close conn) k /\ forall a, at_done (k a).

Definition at_write (conn : Conn) (t : itree E unit) : Prop :=
  exists k, observe t = VisF (Write conn response) k /\ forall a, at_close conn (k a).

Definition at_count (conn : Conn) (n : int) (t : itree E unit) : Prop :=
  exists k, observe t = VisF (Info ("number of bytes" ++ Itoa n) []) k
            /\ forall a, at_write conn (k a).

Definition after_read (conn : Conn) (n : int) (err : option error)
    (t : itree E unit) : Prop :=
  match err with
  | Some e => at_fatal ("error reading. error: %v" ++ Error e) t
  | None => at_count conn n t
  end.

Definition at_read (conn : Conn) (t : itree E unit) : Prop :=
  exists k, observe t = VisF (Read conn 1024) k
            /\ forall n err, after_read conn n err (k (n, err)).

(** The points of [main]. *)

Definition at_again (l : Listener) (t : itree E unit) : Prop :=
  observe t = TauF (accept_loop l).

Definition at_go (l : Listener) (conn : Conn) (t : itree E unit) : Prop :=
  exists k, observe t = VisF (Go conn) k /\ forall a, at_again l (k a).

Definition at_waiting (l : Listener) (conn : Conn) (t : itree E unit) : Prop :=
  exists k, observe t =
              VisF (Info "connection waiting for accept. " [("conn", VConn conn)]) k
            /\ forall a, at_go l conn (k a).

Definition after_accept (l : Listener) (r : Conn + error) (t : itree E unit) : Prop :=
  match r with
  | inr err => at_fatal ("unable to get listener. error: %v" ++ Error err) t
  | inl conn => at_waiting l conn t
  end.

Definition at_accept (l : Listener) (t : itree E unit) : Prop :=
  exists k, observe t = VisF (Accept l) k /\ forall r, after_accept l r (k r).

Definition at_listening (l : Listener) (t : itree E unit) : Prop :=
  exists k, observe t = VisF (Info "Server listening" [("listner", VListener l)]) k
            /\ forall a, at_accept l (k a).

Definition after_listen (r : Listener + error) (t : itree E unit) : Prop :=
  match r with
  | inr err => at_fatal ("unable to get listener. error: %v" ++ Error err) t
  | inl l => at_listening l t
  end.

Definition at_listen (t : itree E unit) : Prop :=
  exists k, observe t = VisF (Listen "tcp" ":8080") k /\ forall r, after_listen r (k r).

Definition at_start (t : itree E unit) : Prop :=
  exists k, observe t = VisF (Print "Server starting") k /\ forall a, at_listen (k a).

End Points.

(** * The shape of the runs

    The notions in which the properties of the responder are stated and
    proved: the calls that [main] and a handler have made at each program
    point, the invariant of the reachable states, and what it means for
    the environment to be reliable. *)

Module Shape.
Import Server Points.
Local Open Scope list_scope.

(** The calls of [main]: a prologue, then one round per connection handed
    to a goroutine, then what [main] did of the round it is in. *)
Definition prologue (l : Listener) : list Call :=
  [CPrint "Server starting"; CListen "tcp" ":8080" (inl l);
   CInfo "Server listening" [("listner", VListener l)]].

Definition waiting (conn : Conn) : Call :=
  CInfo "connection waiting for accept. " [("conn", VConn conn)].

Definition round (l : Listener) (conn : Conn) : list Call :=
  [CAccept l (inl conn); waiting conn; CGo conn].

Definition rounds (l : Listener) (conns : list Conn) : list Call :=
  flat_map (round l) conns.

Definition accept_fatal (e : error) : Call :=
  CFatalf ("unable to get listener. error: %v" ++ Error e).

Definition read_fatal (e : error) : Call :=
  CFatalf ("error reading. error: %v" ++ Error e).

Definition counted (n : int) : Call :=
  CInfo ("number of bytes" ++ Itoa n) [].

(** [main_at conns calls t]: [main] has made [calls], has started the
    handlers of [conns], and is at [t]. *)
Inductive main_at (conns : list Conn) : list Call -> itree E unit -> Prop :=
| m_start t :
    conns = [] -> at_start t -> main_at conns [] t
| m_listen t :
    conns = [] -> at_listen t -> main_at conns [CPrint "Server starting"] t
| m_listened r t :
    conns = [] -> after_listen r t ->
    main_at conns [CPrint "Server starting"; CListen "tcp" ":8080" r] t
| m_nolisten e t :
    conns = [] ->
    main_at conns [CPrint "Server starting"; CListen "tcp" ":8080" (inr e);
                   accept_fatal e] t
| m_loop l t :
    at_accept l t \/ at_again l t ->
    main_at conns (prologue l ++ rounds l conns) t
| m_accepted l r t :
    after_accept l r t ->
    main_at conns (prologue l ++ rounds l conns ++ [CAccept l r]) t
| m_noaccept l e t :
    main_at conns (prologue l ++ rounds l conns ++ [CAccept l (inr e); accept_fatal e]) t
| m_waiting l conn t :
    at_go l conn t ->
    main_at conns (prologue l ++ rounds l conns ++ [CAccept l (inl conn); waiting conn]) t.

(** [handler_at conn calls t]: the handler of [conn] has made [calls] and
    is at [t]. *)
Inductive handler_at (conn : Conn) : list Call -> itree E unit -> Prop :=
| h_start t :
    at_read conn t -> handler_at conn [] t
| h_read n err t :
    0 <= n <= 1024 -> after_read conn n err t ->
    handler_at conn [CRead conn 1024 n err] t
| h_noread n e t :
    0 <= n <= 1024 ->
    handler_at conn [CRead conn 1024 n (Some e); read_fatal e] t
| h_counted n t :
    0 <= n <= 1024 -> at_write conn t ->
    handler_at conn [CRead conn 1024 n None; counted n] t
| h_written n wn werr t :
    0 <= n <= 1024 -> at_close conn t ->
    handler_at conn [CRead conn 1024 n None; counted n; CWrite conn response wn werr] t
| h_closed n wn werr cerr t :
    0 <= n <= 1024 -> at_done t ->
    handler_at conn [CRead conn 1024 n None; counted n; CWrite conn response wn werr;
                     CClose conn cerr] t.

(** The calls after which a goroutine goes on and no goroutine starts. *)
Definition is_plain (c : Call) : bool :=
  match c with
  | CFatalf _ | CGo _ => false
  | _ => true
  end.

Definition is_fatal (c : Call) : bool :=
  match c with
  | CFatalf _ => true
  | _ => false
  end.

(** The process runs as long as no goroutine has called [log.Fatalf]; it
    exits with status 1 in that call, which is then the last of the
    trace. *)
Definition status_ok (s : Sys) : Prop :=
  match status s with
  | Running => forall g c, In (g, c) (trace s) -> is_fatal c = false
  | Exited code =>
      code = 1 /\ exists tr g format, trace s = tr ++ [(g, CFatalf format)]
  end.

Record Inv (conns : list Conn) (s : Sys) : Prop := mkInv {
  inv_length : List.length (goroutines s) = S (List.length conns);
  inv_main : exists t, nth_error (goroutines s) 0 = Some t
                       /\ main_at conns (calls_of 0 (trace s)) t;
  inv_handlers : forall g conn, nth_error conns g = Some conn ->
                 exists t, nth_error (goroutines s) (S g) = Some t
                           /\ handler_at conn (calls_of (S g) (trace s)) t;
  inv_trace : forall g c, In (g, c) (trace s) -> (g < List.length (goroutines s))%nat;
  inv_handed : handed (trace s) = conns;
  inv_status : status_ok s
}.

Definition moved (g : nat) (t' : itree E unit) (c : Call) (s : Sys) : Sys :=
  mkSys (set_nth g t' (goroutines s)) (trace s ++ [(g, c)]) Running.

(** [log.Fatalf] in goroutine [g]: every goroutine stays where it is. *)
Definition killed (g : nat) (format : string) (s : Sys) : Sys :=
  mkSys (goroutines s) (trace s ++ [(g, CFatalf format)]) (Exited 1).

Definition answered (env : Env) (tr : Trace) (c : Call) : Prop :=
  match c with
  | CListen network address r => r = listens env tr network address
  | CAccept l r => r = accepts env tr l
  | CRead conn len n err =>
      err = snd (arrives env tr conn)
      /\ n = Z.of_nat (List.length (firstn len (fst (arrives env tr conn))))
  | CWrite conn p n err => (n, err) = writes env tr conn p
  | CClose conn err => err = closes env tr conn
  | _ => True
  end.

Inductive faithful (env : Env) : Trace -> Prop :=
| faithful_nil : faithful env []
| faithful_snoc tr g c :
    faithful env tr -> answered env tr c -> faithful env (tr ++ [(g, c)]).

Definition failed (c : Call) : bool :=
  match c with
  | CListen _ _ (inr _) | CAccept _ (inr _) | CRead _ _ _ (Some _) => true
  | _ => false
  end.

(** A reliable environment never makes [Listen], [Accept] or [Read] return
    an error; it says nothing of [Write] and [Close]. *)
Definition reliable (env : Env) : Prop :=
  (forall tr network address, exists l, listens env tr network address = inl l)
  /\ (forall tr l, exists conn, accepts env tr l = inl conn)
  /\ (forall tr conn, snd (arrives env tr conn) = None).

(** [main] reaches its next [go] statement in a few steps of its own. *)
Definition spawns_next (env : Env) (s : Sys) : Prop :=
  exists k calls conn,
    status (run env (repeat 0%nat k) s) = Running
    /\ trace (run env (repeat 0%nat k) s) = trace s ++ map (pair 0%nat) calls
    /\ handed (trace (run env (repeat 0%nat k) s)) = handed (trace s) ++ [conn].

(** The calls of a handler that ran to its end. *)
Definition served (conn : Conn) (n wn : int) (werr cerr : option error) : list Call :=
  [CRead conn 1024 n None; counted n; CWrite conn response wn werr; CClose conn cerr].

(** Goroutine [g], which has made [calls] for [conn], gets to the end of
    [doSomething] in at most four steps of its own. *)
Definition finishes (env : Env) (g : nat) (conn : Conn) (s : Sys) (calls : list Call)
  : Prop :=
  exists j more,
    (j <= 4)%nat
    /\ status (run env (repeat g j) s) = Running
    /\ trace (run env (repeat g j) s) = trace s ++ map (pair g) more
    /\ exists n wn werr cerr, calls ++ more = served conn n wn werr cerr.



Definition is_read (c : Call) : bool :=
  match c with
  | CRead _ _ _ _ => true
  | _ => false
  end.

Definition is_write (c : Call) : bool :=
  match c with
  | CWrite _ _ _ _ => true
  | _ => false
  end.

End Shape.

(** * Environments and schedules of the examples *)

Module Scenarios.
Import Server.
Local Open Scope list_scope.

(** Errors of the [net] package, with the text they print. *)
Definition EOF : error := mkError "EOF" false.
Definition ECONNRESET : error := mkError "read: connection reset by peer" false.
Definition EPIPE : error := mkError "write: broken pipe" false.
Definition EMFILE : error :=
  mkError "accept tcp [::]:8080: accept4: too many open files" true.

(** In every environment below the listener is 3 and a connection is named
    by the length of the trace when it is accepted. In [friendly] each peer
    has sent [PING] and every call succeeds. *)
Definition friendly : Env :=
  mkEnv (fun _ _ _ => inl 3%nat)
        (fun tr _ => inl (List.length tr))
        (fun _ _ => (bytes "PING", None))
        (fun _ _ p => (Z.of_nat (List.length p), None))
        (fun _ _ => None).


(** In [reset] the peer resets the connection while the handler reads. *)
Definition reset : Env :=
  mkEnv (fun _ _ _ => inl 3%nat)
        (fun tr _ => inl (List.length tr))
        (fun _ _ => ([], Some ECONNRESET))
        (fun _ _ p => (Z.of_nat (List.length p), None))
        (fun _ _ => None).



(** In [broken_pipe] every write fails. *)
Definition broken_pipe : Env :=
  mkEnv (fun _ _ _ => inl 3%nat)
        (fun tr _ => inl (List.length tr))
        (fun _ _ => (bytes "PING", None))
        (fun _ _ _ => (0, Some EPIPE))
        (fun _ _ => None).

(** In [first_hangs_up] the first client, connection 3, closes without
    sending; every other client sends [PING]. *)
Definition first_hangs_up : Env :=
  mkEnv (fun _ _ _ => inl 3%nat)
        (fun tr _ => inl (List.length tr))
        (fun _ conn => if Nat.eqb conn 3 then ([], Some EOF) else (bytes "PING", None))
        (fun _ _ p => (Z.of_nat (List.length p), None))
        (fun _ _ => None).

(** In [flaky] the first call of [Accept] fails with a temporary error; the
    later ones would succeed. *)
Definition flaky : Env :=
  mkEnv (fun _ _ _ => inl 3%nat)
        (fun tr _ => if Nat.ltb (List.length tr) 4 then inr EMFILE else inl (List.length tr))
        (fun _ _ => (bytes "PING", None))
        (fun _ _ p => (Z.of_nat (List.length p), None))
        (fun _ _ => None).

(** The schedule of [main] up to its first [go] statement: the calls of
    [fmt.Print], [net.Listen], [slog.Info], [Accept], [slog.Info] and
    [go]. *)
Definition first_go : list nat := [0; 0; 0; 0; 0; 0]%nat.

End Scenarios.

(** * The sales ratio of the mocking package *)

Module Mocking.

(** [time.Time] as the nanoseconds since the epoch and [time.Duration] as
    nanoseconds. *)
Definition Time := Z.
Definition Duration := Z.

Definition Hour : Duration := 3600 * 1000000000.

Definition Add (t : Time) (d : Duration) : Time := t + d.

(** What a call gives: the values it returns, or a run-time panic. *)
Inductive Outcome (A : Type) : Type :=
| Returned (a : A)
| Panicked (msg : string).

Arguments Returned {A} a.
Arguments Panicked {A} msg.

(** [a / b] on [int]: the quotient truncated towards zero, on 64 bits; a
    zero divisor panics. *)
Definition quo (a b : int) : Outcome int :=
  if b =? 0 then Panicked "runtime error: integer divide by zero"
  else Returned (wrap (Z.quot a b)).

(** [float64(q)] for an [int]: the nearest number with a 53-bit mantissa,
    ties to the even mantissa. The result is given by its value, which is
    an integer. *)
Definition float64 (q : int) : Z :=
  let a := Z.abs q in
  let shift := Z.log2 a + 1 - 53 in
  if shift <=? 0 then q
  else
    let m := Z.shiftr a shift in
    let rest := a - Z.shiftl m shift in
    let half := Z.shiftl 1 (shift - 1) in
    let up := (half <? rest) || ((rest =? half) && Z.odd m) in
    Z.sgn q * Z.shiftl (if up then m + 1 else m) shift.

(** [fmt.Sprintf("%.2f", f)] for a float whose value is the integer [f]. *)
Definition Sprintf_2f (f : Z) : string := Itoa f ++ ".00".

(** The interface [ShopModel]: the two methods, on a receiver type. *)
Class ShopModel (M : Type) : Type := {
  CountCustomers : M -> Time -> int * option error;
  CountSales : M -> Time -> int * option error
}.

(** [ShopDB] embeds a [*sql.DB]; of the database the two methods use one
    thing, the row of a count query scanned into an [int]. *)
Record ShopDB : Type := mkShopDB {
  QueryRow : string -> Time -> int + error
}.

Definition scan_count (row : int + error) : int * option error :=
  match row with
  | inl count => (count, None)
  | inr err => (0, Some err)
  end.

#[export] Instance ShopDB_ShopModel : ShopModel ShopDB := {
  CountCustomers sdb since :=
    scan_count (QueryRow sdb "SELECT count(*) FROM customers WHERE timestamp > $1" since);
  CountSales sdb since :=
    scan_count (QueryRow sdb "SELECT count(*) FROM sales WHERE timestamp > $1" since)
}.

(** [mongoDb] of the package and [MockShopDB] of its test. *)
Inductive mongoDb : Type := mkMongoDb.

#[export] Instance mongoDb_ShopModel : ShopModel mongoDb := {
  CountCustomers _ _ := (1000, None);
  CountSales _ _ := (300, None)
}.

Inductive MockShopDB : Type := mkMockShopDB.

#[export] Instance MockShopDB_ShopModel : ShopModel MockShopDB := {
  CountCustomers _ _ := (1000, None);
  CountSales _ _ := (333, None)
}.

(** [now] is what [time.Now()] returns. *)
Definition calculateSalesRatio {M : Type} `{ShopModel M} (now : Time) (shopModel : M)
  : Outcome (string * option error) :=
  let since := Add now (-24 * Hour) in
  let '(customer, err) := CountCustomers shopModel since in
  match err with
  | Some _ => Returned ("", None)
  | None =>
      let '(sales, err) := CountSales shopModel since in
      match err with
      | Some _ => Returned ("", None)
      | None =>
          match quo customer sales with
          | Panicked msg => Panicked msg
          | Returned q => Returned (Sprintf_2f (float64 q), None)
          end
      end
  end.

(** A shop whose database cannot be reached, and a shop with customers
    and no sale in the last day. *)
Definition unreachable : ShopDB :=
  mkShopDB (fun _ _ => inr (mkError "dial tcp 127.0.0.1:5432: connect: connection refused" false)).

Definition no_sales : ShopDB :=
  mkShopDB (fun query _ =>
              if String.eqb query "SELECT count(*) FROM customers WHERE timestamp > $1"
              then inl 12 else inl 0).

End Mocking.

(** * What the calls of a run name *)

Module Ledger.
Import Server.
Local Open Scope list_scope.



Definition is_accept (c : Call) : bool :=
  match c with
  | CAccept _ _ => true
  | _ => false
  end.

(** The connection that a call reads, writes or closes. *)
Definition conn_of (c : Call) : option Conn :=
  match c with
  | CRead conn _ _ _ | CWrite conn _ _ _ | CClose conn _ => Some conn
  | _ => None
  end.

(** The calls that the handler of [conn] may make: on [conn], or to a
    logger. *)
Definition handler_call (conn : Conn) (c : Call) : bool :=
  match c with
  | CRead conn' _ _ _ | CWrite conn' _ _ _ | CClose conn' _ => Nat.eqb conn' conn
  | CInfo _ _ | CFatalf _ => true
  | _ => false
  end.

(** The error that a failed call returned, and the text that the program
    puts before it in the message of [log.Fatalf]. *)
Definition error_of (c : Call) : option error :=
  match c with
  | CListen _ _ (inr e) | CAccept _ (inr e) | CRead _ _ _ (Some e) => Some e
  | _ => None
  end.

Definition fatal_prefix (c : Call) : string :=
  match c with
  | CRead _ _ _ _ => "error reading. error: %v"
  | _ => "unable to get listener. error: %v"
  end.

(** An environment in which the port is taken. *)
Definition EADDRINUSE : error :=
  mkError "listen tcp :8080: bind: address already in use" false.

Definition no_port : Env :=
  mkEnv (fun _ _ _ => inr EADDRINUSE)
        (fun tr _ => inl (List.length tr))
        (fun _ _ => (bytes "PING", None))
        (fun _ _ p => (Z.of_nat (List.length p), None))
        (fun _ _ => None).

End Ledger.

(** * The scaling example of the generics package *)

Module Generics.
Import Server.
Local Open Scope list_scope.

(** The types of [constraints.Integer]; a value of one of them is a [Z] in
    the range of the type. *)
Inductive Integer : Type :=
| Int | Int8 | Int16 | Int32 | Int64
| Uint | Uint8 | Uint16 | Uint32 | Uint64 | Uintptr.

Definition bits (T : Integer) : Z :=
  match T with
  | Int8 | Uint8 => 8
  | Int16 | Uint16 => 16
  | Int32 | Uint32 => 32
  | Int | Int64 | Uint | Uint64 | Uintptr => 64
  end.

Definition signed (T : Integer) : bool :=
  match T with
  | Int | Int8 | Int16 | Int32 | Int64 => true
  | _ => false
  end.

Definition in_range (T : Integer) (z : Z) : Prop :=
  if signed T then - 2 ^ (bits T - 1) <= z < 2 ^ (bits T - 1)
  else 0 <= z < 2 ^ bits T.

(** The wrap-around of the arithmetic of the type. *)
Definition wrapT (T : Integer) (z : Z) : Z :=
  if signed T then (z + 2 ^ (bits T - 1)) mod 2 ^ bits T - 2 ^ (bits T - 1)
  else z mod 2 ^ bits T.

(** [e * c] at type [E]. *)
Definition mul (E : Integer) (e c : Z) : Z := wrapT E (e * c).

(** [make([]E, n)]: [n] zeros. *)
Definition make (n : nat) : list Z := repeat 0 n.

(** [for i, e := range s { r[i] = e * c }], from index [i] on, [s] being
    what is left of the slice; the write [r[i] = x] is [set_nth i x r]. *)
Fixpoint scale_loop (E : Integer) (c : Z) (i : nat) (s r : list Z) : list Z :=
  match s with
  | [] => r
  | e :: s' => scale_loop E c (S i) s' (set_nth i (mul E e c) r)
  end.

Definition scale (E : Integer) (s : list Z) (c : Z) : list Z :=
  let r := make (List.length s) in
  scale_loop E c 0 s r.

(** [updatedScale] has the body of [scale]; it differs in its static type,
    [S ~[]E] for [[]E], of which a list of values keeps nothing. *)
Definition updatedScale (E : Integer) (s : list Z) (c : Z) : list Z :=
  let r := make (List.length s) in
  scale_loop E c 0 s r.

(** [type Points []int32] *)
Definition Points := list Z.

(** [strings.Builder]: the bytes written so far. *)
Definition Builder := list Byte.byte.

Definition Builder_Write (builder : Builder) (p : list Byte.byte) : Builder :=
  builder ++ p.

Definition Builder_String (builder : Builder) : string := string_of_list_byte builder.

Definition Points_String (p : Points) : string :=
  let builder :=
    fold_left
      (fun builder v =>
         Builder_Write (Builder_Write builder (bytes (Itoa v)))
                       (bytes (String LF EmptyString)))
      p [] in
  Builder_String builder.

(** Reading a text back: its lines, each ended by a newline, and the
    number on each line. *)
Fixpoint split_lines (s : string) : list string :=
  match s with
  | EmptyString => []
  | String c rest =>
      if Ascii.eqb c LF then EmptyString :: split_lines rest
      else match split_lines rest with
           | [] => [String c EmptyString]
           | line :: lines => String c line :: lines
           end
  end.

Definition read_points (s : string) : list (option Z) := map Atoi (split_lines s).

Fixpoint has_LF (s : string) : bool :=
  match s with
  | EmptyString => false
  | String c rest => Ascii.eqb c LF || has_LF rest
  end.

End Generics.

(** * Facts about the Go values *)

Module GoFacts.

(** The digits that [Itoa] prints read back as the number. *)
Lemma Atoi_Itoa (n : int) : Atoi (Itoa n) = Some n.
Proof.
  unfold Atoi, Itoa. rewrite NilZero.isi.
  - simpl. rewrite DecimalZ.of_to. reflexivity.
  - destruct n; simpl; try discriminate.
    intros H. injection H. apply Unsigned.to_uint_nonnil.
  - destruct n; simpl; try discriminate.
    intros H. injection H. apply Unsigned.to_uint_nonnil.
Qed.

End GoFacts.

(** * The program points of the two functions *)

Module PointFacts.
Import Server Points.

Ltac point := hnf; cbn; eexists; split; [reflexivity | intros].

Ltac last_point := hnf; cbn; eexists; reflexivity.

Lemma doSomething_at_read conn : at_read conn (doSomething conn).
Proof.
  point. destruct err as [e|].
  - last_point.
  - point. point. point. last_point.
Qed.

Lemma accept_loop_at_accept l : at_accept l (accept_loop l).
Proof.
  point. destruct r as [conn|err].
  - point. point. reflexivity.
  - last_point.
Qed.

Lemma main_at_start : at_start main.
Proof.
  point. point. destruct r as [l|err].
  - point. point. destruct r as [conn|err].
    + point. point. reflexivity.
    + last_point.
  - last_point.
Qed.

End PointFacts.

(** * How the scheduler moves a goroutine *)

Module Steps.
Import Server Points Shape PointFacts.
Local Open Scope list_scope.

Lemma length_set_nth {A} n (x : A) l : List.length (set_nth n x l) = List.length l.
Proof.
  revert n; induction l as [|y l IH]; intros [|n]; simpl; auto.
Qed.

Lemma nth_error_set_nth_eq {A} n (x : A) l :
  (n < List.length l)%nat -> nth_error (set_nth n x l) n = Some x.
Proof.
  revert n; induction l as [|y l IH]; intros [|n]; simpl; intros H;
    try lia; auto. apply IH. lia.
Qed.

Lemma nth_error_set_nth_neq {A} n m (x : A) l :
  n <> m -> nth_error (set_nth n x l) m = nth_error l m.
Proof.
  revert n m; induction l as [|y l IH]; intros [|n] [|m]; simpl; intros H;
    try congruence; auto.
Qed.

Lemma calls_of_snoc g g' c tr :
  calls_of g (tr ++ [(g', c)]) =
  if Nat.eqb g' g then calls_of g tr ++ [c] else calls_of g tr.
Proof.
  unfold calls_of. rewrite filter_app, map_app. simpl.
  destruct (Nat.eqb g' g); simpl; auto using app_nil_r.
Qed.

Lemma calls_of_In g c tr : In c (calls_of g tr) <-> In (g, c) tr.
Proof.
  unfold calls_of. rewrite in_map_iff. split.
  - intros [[g' c'] [Hc Hin]]. apply filter_In in Hin. simpl in *.
    destruct Hin as [Hin Hg]. apply Nat.eqb_eq in Hg. subst. exact Hin.
  - intros Hin. exists (g, c). split; auto. apply filter_In. split; auto.
    simpl. apply Nat.eqb_refl.
Qed.

Lemma calls_of_fresh g tr :
  (forall g' c, In (g', c) tr -> g' <> g) -> calls_of g tr = [].
Proof.
  intros H. destruct (calls_of g tr) as [|c cs] eqn:Hc; auto.
  exfalso. apply (H g c); auto. apply calls_of_In. rewrite Hc. left; auto.
Qed.

Section WithEnv.
Variable env : Env.

Lemma step_exited g s code : status s = Exited code -> step env g s = s.
Proof. intros H. unfold step. rewrite H. reflexivity. Qed.

Lemma run_exited sch s code : status s = Exited code -> run env sch s = s.
Proof.
  induction sch as [|g sch IH]; intros H; simpl; auto.
  rewrite (step_exited g s code H). apply IH, H.
Qed.

Lemma run_app sch1 sch2 s : run env (sch1 ++ sch2) s = run env sch2 (run env sch1 s).
Proof. apply fold_left_app. Qed.

Lemma run_snoc sch g s : run env (sch ++ [g]) s = step env g (run env sch s).
Proof. rewrite run_app. reflexivity. Qed.

Lemma step_absent g s : nth_error (goroutines s) g = None -> step env g s = s.
Proof.
  intros H. unfold step. rewrite H. destruct (status s); reflexivity.
Qed.

Lemma step_done g s t :
  nth_error (goroutines s) (S g) = Some t -> at_done t -> step env (S g) s = s.
Proof.
  intros Ht [r Hr]. unfold step. rewrite Ht, Hr. destruct (status s); reflexivity.
Qed.

Lemma step_tau g s t t' :
  status s = Running -> nth_error (goroutines s) g = Some t -> observe t = TauF t' ->
  step env g s = mkSys (set_nth g t' (goroutines s)) (trace s) Running.
Proof.
  intros Hs Ht Ho. unfold step. rewrite Hs, Ht, Ho. reflexivity.
Qed.

Lemma step_fatal g s t format :
  status s = Running -> nth_error (goroutines s) g = Some t -> at_fatal format t ->
  step env g s = mkSys (goroutines s) (trace s ++ [(g, CFatalf format)]) (Exited 1).
Proof.
  intros Hs Ht [k Ho]. unfold step. rewrite Hs, Ht, Ho. reflexivity.
Qed.

Lemma step_call g s t X (e : E X) k c x :
  status s = Running -> nth_error (goroutines s) g = Some t -> observe t = VisF e k ->
  respond env (trace s) e = (c, Some x) ->
  step env g s =
  mkSys (set_nth g (k x) (goroutines s) ++ spawned e) (trace s ++ [(g, c)]) Running.
Proof.
  intros Hs Ht Ho Hr. unfold step. rewrite Hs, Ht, Ho, Hr. reflexivity.
Qed.

(** One step from each point of [doSomething]. *)

Lemma step_read g s t conn data err :
  status s = Running -> nth_error (goroutines s) g = Some t -> at_read conn t ->
  arrives env (trace s) conn = (data, err) ->
  let n := Z.of_nat (List.length (firstn 1024 data)) in
  exists t', step env g s = moved g t' (CRead conn 1024 n err) s
             /\ after_read conn n err t'.
Proof.
  intros Hs Ht [k [Ho Hk]] Ha n. exists (k (n, err)). split; [|apply Hk].
  rewrite (step_call g s t _ _ k (CRead conn 1024 n err) (n, err) Hs Ht Ho).
  - unfold moved. simpl. rewrite app_nil_r. reflexivity.
  - simpl. rewrite Ha. reflexivity.
Qed.

Lemma step_count g s t conn n :
  status s = Running -> nth_error (goroutines s) g = Some t -> at_count conn n t ->
  exists t', step env g s = moved g t' (CInfo ("number of bytes" ++ Itoa n) []) s
             /\ at_write conn t'.
Proof.
  intros Hs Ht [k [Ho Hk]]. exists (k tt). split; [|apply Hk].
  rewrite (step_call g s t _ _ k _ tt Hs Ht Ho eq_refl).
  unfold moved. simpl. rewrite app_nil_r. reflexivity.
Qed.

Lemma step_write g s t conn n err :
  status s = Running -> nth_error (goroutines s) g = Some t -> at_write conn t ->
  writes env (trace s) conn response = (n, err) ->
  exists t', step env g s = moved g t' (CWrite conn response n err) s
             /\ at_close conn t'.
Proof.
  intros Hs Ht [k [Ho Hk]] Hw. exists (k (n, err)). split; [|apply Hk].
  rewrite (step_call g s t _ _ k (CWrite conn response n err) (n, err) Hs Ht Ho).
  - unfold moved. simpl. rewrite app_nil_r. reflexivity.
  - simpl. rewrite Hw. reflexivity.
Qed.

Lemma step_close g s t conn :
  status s = Running -> nth_error (goroutines s) g = Some t -> at_close conn t ->
  exists t', step env g s = moved g t' (CClose conn (closes env (trace s) conn)) s
             /\ at_done t'.
Proof.
  intros Hs Ht [k [Ho Hk]]. exists (k (closes env (trace s) conn)). split; [|apply Hk].
  rewrite (step_call g s t _ _ k _ _ Hs Ht Ho eq_refl).
  unfold moved. simpl. rewrite app_nil_r. reflexivity.
Qed.

(** One step from each point of [main]. *)

Lemma step_start s t :
  status s = Running -> nth_error (goroutines s) 0 = Some t -> at_start t ->
  exists t', step env 0 s = moved 0 t' (CPrint "Server starting") s /\ at_listen t'.
Proof.
  intros Hs Ht [k [Ho Hk]]. exists (k tt). split; [|apply Hk].
  rewrite (step_call 0 s t _ _ k _ tt Hs Ht Ho eq_refl).
  unfold moved. simpl. rewrite app_nil_r. reflexivity.
Qed.

Lemma step_listen s t :
  status s = Running -> nth_error (goroutines s) 0 = Some t -> at_listen t ->
  let r := listens env (trace s) "tcp" ":8080" in
  exists t', step env 0 s = moved 0 t' (CListen "tcp" ":8080" r) s /\ after_listen r t'.
Proof.
  intros Hs Ht [k [Ho Hk]] r. exists (k r). split; [|apply Hk].
  rewrite (step_call 0 s t _ _ k _ r Hs Ht Ho eq_refl).
  unfold moved. simpl. rewrite app_nil_r. reflexivity.
Qed.

Lemma step_listening s t l :
  status s = Running -> nth_error (goroutines s) 0 = Some t -> at_listening l t ->
  exists t', step env 0 s =
             moved 0 t' (CInfo "Server listening" [("listner", VListener l)]) s
             /\ at_accept l t'.
Proof.
  intros Hs Ht [k [Ho Hk]]. exists (k tt). split; [|apply Hk].
  rewrite (step_call 0 s t _ _ k _ tt Hs Ht Ho eq_refl).
  unfold moved. simpl. rewrite app_nil_r. reflexivity.
Qed.

Lemma step_accept s t l :
  status s = Running -> nth_error (goroutines s) 0 = Some t -> at_accept l t ->
  let r := accepts env (trace s) l in
  exists t', step env 0 s = moved 0 t' (CAccept l r) s /\ after_accept l r t'.
Proof.
  intros Hs Ht [k [Ho Hk]] r. exists (k r). split; [|apply Hk].
  rewrite (step_call 0 s t _ _ k _ r Hs Ht Ho eq_refl).
  unfold moved. simpl. rewrite app_nil_r. reflexivity.
Qed.

Lemma step_waiting s t l conn :
  status s = Running -> nth_error (goroutines s) 0 = Some t -> at_waiting l conn t ->
  exists t', step env 0 s =
             moved 0 t' (CInfo "connection waiting for accept. " [("conn", VConn conn)]) s
             /\ at_go l conn t'.
Proof.
  intros Hs Ht [k [Ho Hk]]. exists (k tt). split; [|apply Hk].
  rewrite (step_call 0 s t _ _ k _ tt Hs Ht Ho eq_refl).
  unfold moved. simpl. rewrite app_nil_r. reflexivity.
Qed.

Lemma step_go s t l conn :
  status s = Running -> nth_error (goroutines s) 0 = Some t -> at_go l conn t ->
  exists t', step env 0 s =
             mkSys (set_nth 0 t' (goroutines s) ++ [doSomething conn])
                   (trace s ++ [(0%nat, CGo conn)]) Running
             /\ at_again l t'.
Proof.
  intros Hs Ht [k [Ho Hk]]. exists (k tt). split; [|apply Hk].
  rewrite (step_call 0 s t _ _ k _ tt Hs Ht Ho eq_refl). reflexivity.
Qed.

Lemma step_again s t l :
  status s = Running -> nth_error (goroutines s) 0 = Some t -> at_again l t ->
  step env 0 s = mkSys (set_nth 0 (accept_loop l) (goroutines s)) (trace s) Running.
Proof. intros Hs Ht Ho. apply (step_tau 0 s t _ Hs Ht Ho). Qed.

End WithEnv.
End Steps.

(** * The reachable states of the server *)

Module Reach.
Import Server Points Shape PointFacts Steps.
Local Open Scope list_scope.

Lemma plain_not_fatal c : is_plain c = true -> is_fatal c = false.
Proof. destruct c; simpl; congruence. Qed.

Lemma handed_plain tr g c : is_plain c = true -> handed (tr ++ [(g, c)]) = handed tr.
Proof.
  intros H. unfold handed. rewrite flat_map_app. simpl.
  destruct c; try discriminate H; simpl; apply app_nil_r.
Qed.

Lemma handed_fatal tr g format : handed (tr ++ [(g, CFatalf format)]) = handed tr.
Proof. unfold handed. rewrite flat_map_app. simpl. apply app_nil_r. Qed.

Lemma handed_go tr g conn : handed (tr ++ [(g, CGo conn)]) = handed tr ++ [conn].
Proof. unfold handed. rewrite flat_map_app. reflexivity. Qed.

Lemma Inv_boot : Inv [] boot.
Proof.
  constructor; simpl; auto.
  - exists main. split; auto. apply m_start; auto. apply main_at_start.
  - intros [|g] conn H; discriminate H.
  - intros g c [].
  - hnf. simpl. intros g c [].
Qed.

Ltac prj := cbn [goroutines trace status Nat.eqb].

Lemma rounds_snoc l conns conn :
  rounds l (conns ++ [conn]) = rounds l conns ++ round l conn.
Proof. unfold rounds. rewrite flat_map_app. reflexivity. Qed.

Lemma handler_index conns s g conn :
  Inv conns s -> nth_error conns g = Some conn ->
  (S g < List.length (goroutines s))%nat.
Proof.
  intros HI Hg. rewrite (inv_length _ _ HI).
  assert (g < List.length conns)%nat; [|lia].
  apply nth_error_Some. congruence.
Qed.

Lemma status_ok_moved g t' c s :
  status_ok s -> status s = Running -> is_fatal c = false ->
  status_ok (moved g t' c s).
Proof.
  unfold status_ok, moved. intros H Hs Hc. rewrite Hs in H. simpl.
  intros g' c' Hin. apply in_app_or in Hin. destruct Hin as [Hin|[Heq|[]]].
  - eapply H; eauto.
  - congruence.
Qed.

Lemma inv_trace_moved g t' c s :
  (forall g c, In (g, c) (trace s) -> (g < List.length (goroutines s))%nat) ->
  (g < List.length (goroutines s))%nat ->
  forall g' c', In (g', c') (trace (moved g t' c s)) ->
                (g' < List.length (goroutines (moved g t' c s)))%nat.
Proof.
  intros H Hg g' c' Hin. unfold moved in *. simpl in *. rewrite length_set_nth.
  apply in_app_or in Hin. destruct Hin as [Hin|[Heq|[]]].
  - eapply H; eauto.
  - congruence.
Qed.

(** A step of [main] that is a call other than [Go] or [Fatalf]. *)
Lemma Inv_moved_main conns s t' c :
  Inv conns s -> status s = Running -> is_plain c = true ->
  main_at conns (calls_of 0 (trace s) ++ [c]) t' ->
  Inv conns (moved 0 t' c s).
Proof.
  intros HI Hs Hpl Hm. pose proof (plain_not_fatal c Hpl) as Hc.
  assert (H0 : (0 < List.length (goroutines s))%nat)
    by (rewrite (inv_length _ _ HI); lia).
  constructor; unfold moved.
  - prj. rewrite length_set_nth. apply (inv_length _ _ HI).
  - exists t'. prj. split.
    + apply nth_error_set_nth_eq, H0.
    + rewrite calls_of_snoc. prj. exact Hm.
  - intros g conn Hg. destruct (inv_handlers _ _ HI g conn Hg) as [t [Ht Hh]].
    exists t. prj. split.
    + rewrite nth_error_set_nth_neq; auto.
    + rewrite calls_of_snoc. prj. exact Hh.
  - apply (inv_trace_moved _ t' c s); auto. apply (inv_trace _ _ HI).
  - prj. rewrite handed_plain by exact Hpl. apply (inv_handed _ _ HI).
  - apply (status_ok_moved _ t' c s); auto. apply (inv_status _ _ HI).
Qed.

(** A step of a handler that is a call other than [Fatalf]. *)
Lemma Inv_moved_handler conns s g conn t' c :
  Inv conns s -> status s = Running -> is_plain c = true ->
  nth_error conns g = Some conn ->
  handler_at conn (calls_of (S g) (trace s) ++ [c]) t' ->
  Inv conns (moved (S g) t' c s).
Proof.
  intros HI Hs Hpl Hg Hh. pose proof (plain_not_fatal c Hpl) as Hc.
  pose proof (handler_index _ _ _ _ HI Hg) as Hlt.
  constructor; unfold moved.
  - prj. rewrite length_set_nth. apply (inv_length _ _ HI).
  - destruct (inv_main _ _ HI) as [t [Ht Hm]]. exists t. prj. split.
    + rewrite nth_error_set_nth_neq; auto.
    + rewrite calls_of_snoc. prj. exact Hm.
  - intros g2 conn2 Hg2. prj. rewrite calls_of_snoc.
    destruct (Nat.eq_dec g g2) as [<-|Hne].
    + assert (conn2 = conn) by congruence. subst conn2.
      exists t'. split.
      * apply nth_error_set_nth_eq, Hlt.
      * prj. rewrite Nat.eqb_refl. exact Hh.
    + destruct (inv_handlers _ _ HI g2 conn2 Hg2) as [t [Ht Hh2]].
      exists t. split.
      * rewrite nth_error_set_nth_neq; auto.
      * replace (Nat.eqb (S g) (S g2)) with false; auto.
        symmetry. apply Nat.eqb_neq. congruence.
  - apply (inv_trace_moved _ t' c s); auto. apply (inv_trace _ _ HI).
  - prj. rewrite handed_plain by exact Hpl. apply (inv_handed _ _ HI).
  - apply (status_ok_moved _ t' c s); auto. apply (inv_status _ _ HI).
Qed.

Lemma Inv_killed_main conns s format :
  Inv conns s ->
  (forall t, main_at conns (calls_of 0 (trace s) ++ [CFatalf format]) t) ->
  Inv conns (killed 0 format s).
Proof.
  intros HI Hm. constructor; unfold killed; prj.
  - apply (inv_length _ _ HI).
  - destruct (inv_main _ _ HI) as [t [Ht _]]. exists t. split; auto.
    rewrite calls_of_snoc. prj. apply Hm.
  - intros g conn Hg. destruct (inv_handlers _ _ HI g conn Hg) as [t [Ht Hh]].
    exists t. split; auto. rewrite calls_of_snoc. prj. exact Hh.
  - intros g c Hin. apply in_app_or in Hin. destruct Hin as [Hin|[Heq|[]]].
    + eapply (inv_trace _ _ HI); eauto.
    + inversion Heq; subst. rewrite (inv_length _ _ HI). lia.
  - rewrite handed_fatal. apply (inv_handed _ _ HI).
  - hnf. simpl. split; auto. eauto.
Qed.

Lemma Inv_killed_handler conns s g conn format :
  Inv conns s -> nth_error conns g = Some conn ->
  (forall t, handler_at conn (calls_of (S g) (trace s) ++ [CFatalf format]) t) ->
  Inv conns (killed (S g) format s).
Proof.
  intros HI Hg Hh. constructor; unfold killed; prj.
  - apply (inv_length _ _ HI).
  - destruct (inv_main _ _ HI) as [t [Ht Hm]]. exists t. split; auto.
    rewrite calls_of_snoc. prj. exact Hm.
  - intros g2 conn2 Hg2. rewrite calls_of_snoc.
    destruct (inv_handlers _ _ HI g2 conn2 Hg2) as [t [Ht Hh2]].
    exists t. split; auto.
    destruct (Nat.eq_dec g g2) as [<-|Hne].
    + assert (conn2 = conn) by congruence. subst conn2.
      prj. rewrite Nat.eqb_refl. apply Hh.
    + replace (Nat.eqb (S g) (S g2)) with false; auto.
      symmetry. apply Nat.eqb_neq. congruence.
  - intros g2 c Hin. apply in_app_or in Hin. destruct Hin as [Hin|[Heq|[]]].
    + eapply (inv_trace _ _ HI); eauto.
    + inversion Heq; subst. eapply handler_index; eauto.
  - rewrite handed_fatal. apply (inv_handed _ _ HI).
  - hnf. simpl. split; auto. eauto.
Qed.

(** The silent step of [main] back to the head of the loop. *)
Lemma Inv_silent_main conns s t' :
  Inv conns s -> status s = Running ->
  main_at conns (calls_of 0 (trace s)) t' ->
  Inv conns (mkSys (set_nth 0 t' (goroutines s)) (trace s) Running).
Proof.
  intros HI Hs Hm.
  assert (H0 : (0 < List.length (goroutines s))%nat)
    by (rewrite (inv_length _ _ HI); lia).
  constructor; prj.
  - rewrite length_set_nth. apply (inv_length _ _ HI).
  - exists t'. split; auto. apply nth_error_set_nth_eq, H0.
  - intros g conn Hg. destruct (inv_handlers _ _ HI g conn Hg) as [t [Ht Hh]].
    exists t. split; auto. rewrite nth_error_set_nth_neq; auto.
  - intros g c Hin. rewrite length_set_nth. eapply (inv_trace _ _ HI); eauto.
  - apply (inv_handed _ _ HI).
  - pose proof (inv_status _ _ HI) as H. unfold status_ok in *.
    rewrite Hs in H. exact H.
Qed.

(** [go doSomething(conn)]: one more goroutine, which has made no call. *)
Lemma Inv_go conns s t' conn :
  Inv conns s -> status s = Running ->
  main_at (conns ++ [conn]) (calls_of 0 (trace s) ++ [CGo conn]) t' ->
  Inv (conns ++ [conn])
      (mkSys (set_nth 0 t' (goroutines s) ++ [doSomething conn])
             (trace s ++ [(0%nat, CGo conn)]) Running).
Proof.
  intros HI Hs Hm.
  pose proof (inv_length _ _ HI) as Hlen.
  constructor; prj.
  - rewrite !length_app, length_set_nth, Hlen. simpl. lia.
  - exists t'. split.
    + rewrite nth_error_app1 by (rewrite length_set_nth; lia).
      apply nth_error_set_nth_eq. lia.
    + rewrite calls_of_snoc. prj. exact Hm.
  - intros g conn2 Hg. rewrite calls_of_snoc. prj.
    destruct (Nat.lt_ge_cases g (List.length conns)) as [Hlt|Hge].
    + rewrite nth_error_app1 in Hg by exact Hlt.
      destruct (inv_handlers _ _ HI g conn2 Hg) as [t [Ht Hh]].
      exists t. split; auto.
      rewrite nth_error_app1 by (rewrite length_set_nth; lia).
      rewrite nth_error_set_nth_neq; auto.
    + rewrite nth_error_app2 in Hg by exact Hge.
      destruct (g - List.length conns)%nat as [|d] eqn:Hd;
        [|destruct d; discriminate Hg].
      assert (g = List.length conns) by lia. subst g.
      simpl in Hg. assert (conn2 = conn) by congruence. subst conn2.
      exists (doSomething conn). split.
      * rewrite nth_error_app2 by (rewrite length_set_nth; lia).
        rewrite length_set_nth, Hlen, Nat.sub_diag. reflexivity.
      * rewrite calls_of_fresh.
        -- apply h_start, doSomething_at_read.
        -- intros g' c Hin. apply (inv_trace _ _ HI) in Hin. lia.
  - intros g c Hin. rewrite length_app, length_set_nth. simpl.
    apply in_app_or in Hin. destruct Hin as [Hin|[Heq|[]]].
    + apply (inv_trace _ _ HI) in Hin. lia.
    + inversion Heq; subst. lia.
  - rewrite handed_go, (inv_handed _ _ HI). reflexivity.
  - pose proof (inv_status _ _ HI) as H. unfold status_ok in *.
    rewrite Hs in H. prj. intros g c Hin.
    apply in_app_or in Hin. destruct Hin as [Hin|[Heq|[]]].
    + eapply H; eauto.
    + inversion Heq; subst. reflexivity.
Qed.

Lemma running_no_fatal conns s g calls format :
  Inv conns s -> status s = Running ->
  calls_of g (trace s) = calls -> In (CFatalf format) calls -> False.
Proof.
  intros HI Hs Hc Hin. subst calls. apply calls_of_In in Hin.
  pose proof (inv_status _ _ HI) as H. unfold status_ok in H. rewrite Hs in H.
  apply H in Hin. discriminate Hin.
Qed.

Section WithEnv.
Variable env : Env.

Lemma Inv_step_main conns s :
  Inv conns s -> status s = Running -> exists conns', Inv conns' (step env 0 s).
Proof.
  intros HI Hs. destruct (inv_main _ _ HI) as [t [Ht Hm]].
  remember (calls_of 0 (trace s)) as calls eqn:Hc.
  destruct Hm as [t H0 H|t H0 H|r t H0 H|e t H0|l t H|l r t H|l e t|l conn t H].
  - destruct (step_start env s t Hs Ht H) as [t' [-> Hp]].
    exists conns. apply Inv_moved_main; auto. rewrite <- Hc. apply m_listen; auto.
  - destruct (step_listen env s t Hs Ht H) as [t' [-> Hp]].
    exists conns. apply Inv_moved_main; auto. rewrite <- Hc. apply m_listened; auto.
  - destruct r as [l|e]; simpl in H.
    + destruct (step_listening env s t l Hs Ht H) as [t' [-> Hp]].
      exists conns. apply Inv_moved_main; auto. rewrite <- Hc. subst conns.
      exact (m_loop [] l t' (or_introl Hp)).
    + rewrite (step_fatal env 0 s t _ Hs Ht H).
      exists conns. apply Inv_killed_main; auto. intros t'. rewrite <- Hc.
      apply m_nolisten; auto.
  - exfalso. symmetry in Hc.
    eapply (running_no_fatal conns s 0%nat _ _ HI Hs Hc). right. right. left. reflexivity.
  - destruct H as [H|H].
    + destruct (step_accept env s t l Hs Ht H) as [t' [-> Hp]].
      exists conns. apply Inv_moved_main; auto. rewrite <- Hc, <- app_assoc.
      apply m_accepted; auto.
    + rewrite (step_again env s t l Hs Ht H).
      exists conns. apply Inv_silent_main; auto. rewrite <- Hc.
      apply m_loop. left. apply accept_loop_at_accept.
  - destruct r as [conn|e]; simpl in H.
    + destruct (step_waiting env s t l conn Hs Ht H) as [t' [-> Hp]].
      exists conns. apply Inv_moved_main; auto. rewrite <- Hc, <- !app_assoc.
      apply m_waiting; auto.
    + rewrite (step_fatal env 0 s t _ Hs Ht H).
      exists conns. apply Inv_killed_main; auto. intros t'.
      rewrite <- Hc, <- !app_assoc. apply m_noaccept.
  - exfalso. symmetry in Hc.
    eapply (running_no_fatal conns s 0%nat _ _ HI Hs Hc).
    rewrite !in_app_iff. right. right. right. left. reflexivity.
  - destruct (step_go env s t l conn Hs Ht H) as [t' [-> Hp]].
    exists (conns ++ [conn]). apply Inv_go; auto.
    rewrite <- Hc, <- !app_assoc.
    change ([CAccept l (inl conn); waiting conn] ++ [CGo conn]) with (round l conn).
    rewrite <- rounds_snoc. apply m_loop. right. exact Hp.
Qed.

Lemma read_bound (data : list Byte.byte) :
  0 <= Z.of_nat (List.length (firstn 1024 data)) <= 1024.
Proof. rewrite length_firstn. lia. Qed.

Lemma Inv_step_handler conns s g conn :
  Inv conns s -> status s = Running -> nth_error conns g = Some conn ->
  Inv conns (step env (S g) s).
Proof.
  intros HI Hs Hg. destruct (inv_handlers _ _ HI g conn Hg) as [t [Ht Hh]].
  remember (calls_of (S g) (trace s)) as calls eqn:Hc.
  destruct Hh as [t H|n err t Hn H|n e t Hn|n t Hn H|n wn werr t Hn H|n wn werr cerr t Hn H].
  - destruct (arrives env (trace s) conn) as [data err] eqn:Ha.
    destruct (step_read env (S g) s t conn data err Hs Ht H Ha) as [t' [-> Hp]].
    apply (Inv_moved_handler conns s g conn); auto. rewrite <- Hc.
    apply h_read; auto. apply read_bound.
  - destruct err as [e|]; simpl in H.
    + rewrite (step_fatal env (S g) s t _ Hs Ht H).
      apply (Inv_killed_handler conns s g conn); auto. intros t'. rewrite <- Hc.
      apply h_noread; auto.
    + destruct (step_count env (S g) s t conn n Hs Ht H) as [t' [-> Hp]].
      apply (Inv_moved_handler conns s g conn); auto. rewrite <- Hc.
      apply h_counted; auto.
  - exfalso. symmetry in Hc.
    eapply (running_no_fatal conns s (S g) _ _ HI Hs Hc). right. left. reflexivity.
  - destruct (writes env (trace s) conn response) as [wn werr] eqn:Hw.
    destruct (step_write env (S g) s t conn wn werr Hs Ht H Hw) as [t' [-> Hp]].
    apply (Inv_moved_handler conns s g conn); auto. rewrite <- Hc.
    apply h_written; auto.
  - destruct (step_close env (S g) s t conn Hs Ht H) as [t' [-> Hp]].
    apply (Inv_moved_handler conns s g conn); auto. rewrite <- Hc.
    apply h_closed; auto.
  - rewrite (step_done env g s t Ht H). exact HI.
Qed.

Lemma Inv_step conns s g :
  Inv conns s -> exists conns', Inv conns' (step env g s).
Proof.
  intros HI. destruct (status s) as [|code] eqn:Hs.
  - destruct g as [|g].
    + apply (Inv_step_main conns s HI Hs).
    + destruct (nth_error conns g) as [conn|] eqn:Hg.
      * exists conns. eapply Inv_step_handler; eauto.
      * exists conns. rewrite step_absent; auto.
        apply nth_error_None. rewrite (inv_length _ _ HI).
        apply nth_error_None in Hg. lia.
  - exists conns. rewrite (step_exited env g s code Hs). exact HI.
Qed.

Lemma Inv_run_from sch : forall conns s,
  Inv conns s -> exists conns', Inv conns' (run env sch s).
Proof.
  induction sch as [|g sch IH]; intros conns s HI; simpl.
  - exists conns. exact HI.
  - destruct (Inv_step conns s g HI) as [conns' HI']. apply (IH conns' _ HI').
Qed.

Lemma Inv_run sch : Inv (handed (trace (run env sch boot))) (run env sch boot).
Proof.
  destruct (Inv_run_from sch [] boot Inv_boot) as [conns HI].
  rewrite (inv_handed _ _ HI). exact HI.
Qed.

(** *** A handler that runs without interruption *)

Lemma set_nth_set_nth {A} n (x y : A) l : set_nth n y (set_nth n x l) = set_nth n y l.
Proof.
  revert n; induction l as [|z l IH]; intros [|n]; simpl; auto.
  rewrite IH. reflexivity.
Qed.

Lemma nth_error_moved g t c s t' :
  nth_error (goroutines s) g = Some t ->
  nth_error (goroutines (moved g t' c s)) g = Some t'.
Proof.
  intros H. unfold moved. prj. apply nth_error_set_nth_eq.
  apply nth_error_Some. congruence.
Qed.

(** The read returns no error: four steps, the last of which closes. *)
Lemma handler_run_ok g s t conn data :
  status s = Running -> nth_error (goroutines s) g = Some t -> at_read conn t ->
  arrives env (trace s) conn = (data, None) ->
  let n := Z.of_nat (List.length (firstn 1024 data)) in
  let tr2 := trace s ++ [(g, CRead conn 1024 n None); (g, counted n)] in
  let w := writes env tr2 conn response in
  let tr3 := tr2 ++ [(g, CWrite conn response (fst w) (snd w))] in
  exists t', run env [g; g; g; g] s =
             mkSys (set_nth g t' (goroutines s))
                   (tr3 ++ [(g, CClose conn (closes env tr3 conn))]) Running
             /\ at_done t'.
Proof.
  intros Hs Ht Hp Ha n tr2 w tr3. unfold run. cbn [fold_left].
  destruct (step_read env g s t conn data None Hs Ht Hp Ha) as [t1 [-> H1]].
  unfold after_read in H1. fold n in H1 |- *.
  set (s1 := moved g t1 (CRead conn 1024 n None) s).
  pose proof (nth_error_moved g t (CRead conn 1024 n None) s t1 Ht) as Ht1.
  destruct (step_count env g s1 t1 conn n eq_refl Ht1 H1) as [t2 [-> H2]].
  set (s2 := moved g t2 (CInfo ("number of bytes" ++ Itoa n) []) s1).
  pose proof (nth_error_moved g t1 (counted n) s1 t2 Ht1) as Ht2.
  assert (Hw : writes env (trace s2) conn response = (fst w, snd w)).
  { unfold s2, s1, moved. prj. rewrite <- app_assoc.
    exact (surjective_pairing w). }
  destruct (step_write env g s2 t2 conn (fst w) (snd w) eq_refl Ht2 H2 Hw) as [t3 [-> H3]].
  set (s3 := moved g t3 (CWrite conn response (fst w) (snd w)) s2).
  pose proof (nth_error_moved g t2 (CWrite conn response (fst w) (snd w)) s2 t3 Ht2) as Ht3.
  destruct (step_close env g s3 t3 conn eq_refl Ht3 H3) as [t4 [-> H4]].
  exists t4. split; auto. unfold s3, s2, s1, moved. prj. rewrite !set_nth_set_nth.
  assert (E2 : (trace s ++ [(g, CRead conn 1024 n None)]) ++ [(g, counted n)] = tr2)
    by (unfold tr2; rewrite <- app_assoc; reflexivity).
  unfold counted in E2. rewrite E2. reflexivity.
Qed.

(** From the write on: two steps, whatever the write returns. *)
Lemma handler_run_write g s t conn wn werr :
  status s = Running -> nth_error (goroutines s) g = Some t -> at_write conn t ->
  writes env (trace s) conn response = (wn, werr) ->
  let tr1 := trace s ++ [(g, CWrite conn response wn werr)] in
  exists t', run env [g; g] s =
             mkSys (set_nth g t' (goroutines s))
                   (tr1 ++ [(g, CClose conn (closes env tr1 conn))]) Running
             /\ at_done t'.
Proof.
  intros Hs Ht Hp Hw tr1. unfold run. cbn [fold_left].
  destruct (step_write env g s t conn wn werr Hs Ht Hp Hw) as [t1 [-> H1]].
  set (s1 := moved g t1 (CWrite conn response wn werr) s).
  pose proof (nth_error_moved g t (CWrite conn response wn werr) s t1 Ht) as Ht1.
  destruct (step_close env g s1 t1 conn eq_refl Ht1 H1) as [t2 [-> H2]].
  exists t2. split; auto. unfold s1, moved. prj. rewrite set_nth_set_nth. reflexivity.
Qed.


(** From each point of the handler to its end. *)
Lemma finishes_from_close g s t conn n wn werr :
  status s = Running -> nth_error (goroutines s) g = Some t -> at_close conn t ->
  finishes env g conn s [CRead conn 1024 n None; counted n; CWrite conn response wn werr].
Proof.
  intros Hs Ht Hp. destruct (step_close env g s t conn Hs Ht Hp) as [t' [Hstep _]].
  exists 1%nat, [CClose conn (closes env (trace s) conn)]. simpl. rewrite Hstep.
  split; [lia|]. split; [reflexivity|]. split; [reflexivity|].
  eexists _, _, _, _. reflexivity.
Qed.

Lemma finishes_from_write g s t conn n :
  status s = Running -> nth_error (goroutines s) g = Some t -> at_write conn t ->
  finishes env g conn s [CRead conn 1024 n None; counted n].
Proof.
  intros Hs Ht Hp.
  destruct (writes env (trace s) conn response) as [wn werr] eqn:Hw.
  destruct (handler_run_write g s t conn wn werr Hs Ht Hp Hw) as [t' [Hrun _]].
  exists 2%nat. eexists [_; _]. simpl repeat. rewrite Hrun. prj.
  split; [lia|]. split; [reflexivity|]. split.
  - rewrite <- app_assoc. reflexivity.
  - eexists _, _, _, _. reflexivity.
Qed.

Lemma finishes_from_count g s t conn n :
  status s = Running -> nth_error (goroutines s) g = Some t -> at_count conn n t ->
  finishes env g conn s [CRead conn 1024 n None].
Proof.
  intros Hs Ht Hp. destruct (step_count env g s t conn n Hs Ht Hp) as [t1 [Hstep H1]].
  set (s1 := moved g t1 (CInfo ("number of bytes" ++ Itoa n) []) s) in *.
  pose proof (nth_error_moved g t (counted n) s t1 Ht) as Ht1.
  destruct (writes env (trace s1) conn response) as [wn werr] eqn:Hw.
  destruct (handler_run_write g s1 t1 conn wn werr eq_refl Ht1 H1 Hw) as [t' [Hrun _]].
  exists 3%nat. eexists [_; _; _].
  change (run env (repeat g 3) s) with (run env [g; g] (step env g s)).
  rewrite Hstep, Hrun. prj.
  split; [lia|]. split; [reflexivity|]. split.
  - unfold s1, moved. prj. rewrite <- !app_assoc. reflexivity.
  - eexists _, _, _, _. reflexivity.
Qed.

Lemma finishes_from_read g s t conn data :
  status s = Running -> nth_error (goroutines s) g = Some t -> at_read conn t ->
  arrives env (trace s) conn = (data, None) ->
  finishes env g conn s [].
Proof.
  intros Hs Ht Hp Ha.
  destruct (handler_run_ok g s t conn data Hs Ht Hp Ha) as [t' [Hrun _]].
  exists 4%nat. eexists [_; _; _; _]. simpl repeat. rewrite Hrun. prj.
  split; [lia|]. split; [reflexivity|]. split.
  - rewrite <- !app_assoc. reflexivity.
  - eexists _, _, _, _. reflexivity.
Qed.

(** *** What the trace of a run looks like *)



Lemma calls_of_app g tr1 tr2 : calls_of g (tr1 ++ tr2) = calls_of g tr1 ++ calls_of g tr2.
Proof. unfold calls_of. rewrite filter_app, map_app. reflexivity. Qed.

(** The handler of the connection at index [g] is goroutine [S g]. *)
Lemma reached_handler sch g conn :
  let s := run env sch boot in
  nth_error (handed (trace s)) g = Some conn ->
  exists t, nth_error (goroutines s) (S g) = Some t
            /\ handler_at conn (calls_of (S g) (trace s)) t.
Proof. intros s Hg. apply (inv_handlers _ _ (Inv_run sch) g conn Hg). Qed.

(** Only the goroutines that [main] started make calls. *)
Lemma reached_caller sch g c :
  let s := run env sch boot in
  In c (calls_of (S g) (trace s)) -> exists conn, nth_error (handed (trace s)) g = Some conn.
Proof.
  intros s Hin. apply calls_of_In in Hin.
  pose proof (Inv_run sch) as HI. apply (inv_trace _ _ HI) in Hin.
  rewrite (inv_length _ _ HI) in Hin.
  destruct (nth_error (handed (trace s)) g) as [conn|] eqn:Hg; eauto.
  apply nth_error_None in Hg. fold s in Hin. lia.
Qed.

Lemma fresh_handler sch g conn :
  let s := run env sch boot in
  nth_error (handed (trace s)) g = Some conn -> calls_of (S g) (trace s) = [] ->
  exists t, nth_error (goroutines s) (S g) = Some t /\ at_read conn t.
Proof.
  intros s Hg Hc. destruct (reached_handler sch g conn Hg) as [t [Ht Hh]].
  fold s in Ht, Hh. rewrite Hc in Hh. exists t. split; auto.
  inversion Hh; auto.
Qed.

(** *** The answers in the trace are those of the environment *)

Lemma respond_answered tr X (e : E X) : answered env tr (fst (respond env tr e)).
Proof.
  destruct e; unfold respond; try (simpl; auto; fail).
  - destruct (arrives env tr c) as [data err] eqn:Ha. simpl. rewrite Ha. split; reflexivity.
  - destruct (writes env tr c p) as [n err] eqn:Hw. simpl. rewrite Hw. reflexivity.
Qed.

Lemma faithful_step g s : faithful env (trace s) -> faithful env (trace (step env g s)).
Proof.
  intros H. unfold step. destruct (status s); auto.
  destruct (nth_error (goroutines s) g) as [t|]; auto.
  destruct (observe t) as [r|t'|X e k]; auto.
  - destruct g; simpl; auto.
  - pose proof (respond_answered (trace s) X e) as Ha.
    destruct (respond env (trace s) e) as [c [x|]]; simpl in *;
      apply faithful_snoc; auto.
Qed.

Lemma faithful_run sch : forall s, faithful env (trace s) -> faithful env (trace (run env sch s)).
Proof.
  induction sch as [|g sch IH]; intros s H; simpl; auto using faithful_step.
Qed.

Lemma reached_faithful sch : faithful env (trace (run env sch boot)).
Proof. apply faithful_run. constructor. Qed.

(** *** When no listen, accept or read fails *)

Lemma reliable_answer tr c : reliable env -> answered env tr c -> failed c = false.
Proof.
  intros [Hl [Ha Hr]] H. destruct c; simpl in *; auto.
  - destruct (Hl tr network address) as [l Hl']. rewrite Hl' in H. subst. reflexivity.
  - destruct (Ha tr l) as [conn Ha']. rewrite Ha' in H. subst. reflexivity.
  - destruct H as [H _]. rewrite Hr in H. subst. reflexivity.
Qed.

Lemma faithful_reliable tr :
  reliable env -> faithful env tr -> forall g c, In (g, c) tr -> failed c = false.
Proof.
  intros Hrel H. induction H as [|tr g0 c0 H IH Hans]; intros g c Hin.
  - destruct Hin.
  - apply in_app_or in Hin. destruct Hin as [Hin|[Heq|[]]].
    + eapply IH; eauto.
    + inversion Heq; subst. eapply reliable_answer; eauto.
Qed.

Lemma rounds_plain l conns c :
  In c (rounds l conns) -> is_fatal c = false.
Proof.
  unfold rounds. rewrite in_flat_map. intros [conn [_ Hin]].
  simpl in Hin. destruct Hin as [<-|[<-|[<-|[]]]]; reflexivity.
Qed.

Lemma prologue_plain l c : In c (prologue l) -> is_fatal c = false.
Proof. simpl. intros [<-|[<-|[<-|[]]]]; reflexivity. Qed.

(** [log.Fatalf] is only ever called after a failed listen, accept or
    read of the same goroutine. *)
Lemma fatal_after_failure conns s g format :
  Inv conns s -> In (g, CFatalf format) (trace s) ->
  exists c, In (g, c) (trace s) /\ failed c = true.
Proof.
  intros HI Hin. pose proof Hin as Hlt. apply (inv_trace _ _ HI) in Hlt.
  apply calls_of_In in Hin. destruct g as [|g].
  - destruct (inv_main _ _ HI) as [t [_ Hm]].
    remember (calls_of 0 (trace s)) as calls eqn:Hc.
    assert (Hsub : forall c, In c calls -> In (0%nat, c) (trace s))
      by (intros c Hc'; apply calls_of_In; rewrite <- Hc; exact Hc').
    destruct Hm as [t H0 H|t H0 H|r t H0 H|e t H0|l t H|l r t H|l e t|l conn t H].
    + destruct Hin.
    + simpl in Hin. destruct Hin as [Heq|[]]. discriminate Heq.
    + simpl in Hin. destruct Hin as [Heq|[Heq|[]]]; discriminate Heq.
    + exists (CListen "tcp" ":8080" (inr e)). split; [|reflexivity].
      apply Hsub. right. left. reflexivity.
    + apply in_app_or in Hin. destruct Hin as [Hin|Hin].
      * apply prologue_plain in Hin. discriminate Hin.
      * apply rounds_plain in Hin. discriminate Hin.
    + apply in_app_or in Hin. destruct Hin as [Hin|Hin];
        [apply prologue_plain in Hin; discriminate Hin|].
      apply in_app_or in Hin. destruct Hin as [Hin|Hin];
        [apply rounds_plain in Hin; discriminate Hin|].
      destruct Hin as [Heq|[]]. discriminate Heq.
    + exists (CAccept l (inr e)). split; [|reflexivity].
      apply Hsub. rewrite !in_app_iff. right. right. left. reflexivity.
    + apply in_app_or in Hin. destruct Hin as [Hin|Hin];
        [apply prologue_plain in Hin; discriminate Hin|].
      apply in_app_or in Hin. destruct Hin as [Hin|Hin];
        [apply rounds_plain in Hin; discriminate Hin|].
      destruct Hin as [Heq|[Heq|[]]]; discriminate Heq.
  - rewrite (inv_length _ _ HI) in Hlt.
    destruct (nth_error conns g) as [conn|] eqn:Hg;
      [|apply nth_error_None in Hg; lia].
    destruct (inv_handlers _ _ HI g conn Hg) as [t [_ Hh]].
    remember (calls_of (S g) (trace s)) as calls eqn:Hc.
    assert (Hsub : forall c, In c calls -> In (S g, c) (trace s))
      by (intros c Hc'; apply calls_of_In; rewrite <- Hc; exact Hc').
    destruct Hh as [t H|n err t Hn H|n e t Hn|n t Hn H|n wn werr t Hn H|n wn werr cerr t Hn H];
      try (simpl in Hin; repeat (destruct Hin as [Hin|Hin]; [discriminate Hin|]);
           destruct Hin; fail).
    exists (CRead conn 1024 n (Some e)). split; [|reflexivity].
    apply Hsub. left. reflexivity.
Qed.

Lemma reliable_running sch : reliable env -> status (run env sch boot) = Running.
Proof.
  intros Hrel. pose proof (Inv_run sch) as HI.
  pose proof (inv_status _ _ HI) as Hst. unfold status_ok in Hst.
  destruct (status (run env sch boot)) as [|code]; auto.
  destruct Hst as [_ [tr [g [format Htr]]]].
  destruct (fatal_after_failure _ _ g format HI) as [c [Hin Hf]].
  - rewrite Htr. apply in_or_app. right. left. reflexivity.
  - rewrite (faithful_reliable _ Hrel (reached_faithful sch) g c Hin) in Hf.
    discriminate Hf.
Qed.

(** With a reliable environment every handler, wherever it is, gets to
    the end of [doSomething]. *)
Lemma reliable_finishes sch g conn :
  reliable env ->
  nth_error (handed (trace (run env sch boot))) g = Some conn ->
  finishes env (S g) conn (run env sch boot) (calls_of (S g) (trace (run env sch boot))).
Proof.
  intros Hrel Hg. pose proof (reliable_running sch Hrel) as Hs.
  assert (Hok : forall c, In c (calls_of (S g) (trace (run env sch boot))) -> failed c = false).
  { intros c Hin. apply calls_of_In in Hin.
    apply (faithful_reliable _ Hrel (reached_faithful sch) _ _ Hin). }
  destruct (reached_handler sch g conn Hg) as [t [Ht Hh]].
  remember (calls_of (S g) (trace (run env sch boot))) as calls eqn:Hc.
  destruct Hh as [t H|n err t Hn H|n e t Hn|n t Hn H|n wn werr t Hn H|n wn werr cerr t Hn H].
  - destruct (arrives env (trace (run env sch boot)) conn) as [data err] eqn:Ha.
    assert (err = None).
    { destruct Hrel as [_ [_ Hr]]. specialize (Hr (trace (run env sch boot)) conn).
      rewrite Ha in Hr. exact Hr. }
    subst err. eapply finishes_from_read; eauto.
  - destruct err as [e|].
    + assert (Hf : failed (CRead conn 1024 n (Some e)) = false)
        by (apply Hok; left; reflexivity).
      discriminate Hf.
    + eapply finishes_from_count; eauto.
  - assert (Hf : failed (CRead conn 1024 n (Some e)) = false)
      by (apply Hok; left; reflexivity).
    discriminate Hf.
  - eapply finishes_from_write; eauto.
  - eapply finishes_from_close; eauto.
  - exists 0%nat, []. simpl. split; [lia|]. split; [exact Hs|].
    split; [symmetry; apply app_nil_r|].
    eexists _, _, _, _. reflexivity.
Qed.

Lemma spawns_after_call s t' c :
  step env 0 s = moved 0 t' c s -> is_plain c = true ->
  spawns_next env (moved 0 t' c s) -> spawns_next env s.
Proof.
  intros Hstep Hpl [k [calls [conn [H1 [H2 H3]]]]].
  exists (S k), (c :: calls), conn. simpl. rewrite Hstep.
  split; [exact H1|]. split.
  - rewrite H2. unfold moved. prj. rewrite <- app_assoc. reflexivity.
  - rewrite H3. unfold moved. prj. rewrite handed_plain by exact Hpl. reflexivity.
Qed.

Lemma spawns_from_go s t l conn :
  status s = Running -> nth_error (goroutines s) 0 = Some t -> at_go l conn t ->
  spawns_next env s.
Proof.
  intros Hs Ht H. destruct (step_go env s t l conn Hs Ht H) as [t' [Hstep _]].
  exists 1%nat, [CGo conn], conn. simpl. rewrite Hstep. prj.
  split; [reflexivity|]. split; [reflexivity|]. apply handed_go.
Qed.

Lemma spawns_from_waiting s t l conn :
  status s = Running -> nth_error (goroutines s) 0 = Some t -> at_waiting l conn t ->
  spawns_next env s.
Proof.
  intros Hs Ht H. destruct (step_waiting env s t l conn Hs Ht H) as [t' [Hstep Hp]].
  apply (spawns_after_call s t' _ Hstep eq_refl).
  match type of Hstep with
  | _ = ?s1 => apply (spawns_from_go s1 t' l conn eq_refl (nth_error_moved 0 t _ s t' Ht) Hp)
  end.
Qed.

Lemma spawns_from_accept s t l :
  reliable env ->
  status s = Running -> nth_error (goroutines s) 0 = Some t -> at_accept l t ->
  spawns_next env s.
Proof.
  intros Hrel Hs Ht H. destruct (step_accept env s t l Hs Ht H) as [t' [Hstep Hp]].
  destruct Hrel as [_ [Ha _]]. destruct (Ha (trace s) l) as [conn Hc].
  rewrite Hc in Hstep, Hp.
  apply (spawns_after_call s t' _ Hstep eq_refl).
  match type of Hstep with
  | _ = ?s1 =>
      apply (spawns_from_waiting s1 t' l conn eq_refl (nth_error_moved 0 t _ s t' Ht) Hp)
  end.
Qed.

Lemma spawns_from_again s t l :
  reliable env ->
  status s = Running -> nth_error (goroutines s) 0 = Some t -> at_again l t ->
  spawns_next env s.
Proof.
  intros Hrel Hs Ht H. pose proof (step_again env s t l Hs Ht H) as Hstep.
  destruct (spawns_from_accept
              (mkSys (set_nth 0 (accept_loop l) (goroutines s)) (trace s) Running)
              (accept_loop l) l Hrel eq_refl)
    as [k [calls [conn [H1 [H2 H3]]]]].
  - prj. apply nth_error_set_nth_eq. apply nth_error_Some. congruence.
  - apply accept_loop_at_accept.
  - exists (S k), calls, conn. simpl. rewrite Hstep. auto.
Qed.

Lemma spawns_from_listening s t l :
  reliable env ->
  status s = Running -> nth_error (goroutines s) 0 = Some t -> at_listening l t ->
  spawns_next env s.
Proof.
  intros Hrel Hs Ht H. destruct (step_listening env s t l Hs Ht H) as [t' [Hstep Hp]].
  apply (spawns_after_call s t' _ Hstep eq_refl).
  match type of Hstep with
  | _ = ?s1 =>
      apply (spawns_from_accept s1 t' l Hrel eq_refl (nth_error_moved 0 t _ s t' Ht) Hp)
  end.
Qed.

Lemma spawns_from_listen s t :
  reliable env ->
  status s = Running -> nth_error (goroutines s) 0 = Some t -> at_listen t ->
  spawns_next env s.
Proof.
  intros Hrel Hs Ht H. destruct (step_listen env s t Hs Ht H) as [t' [Hstep Hp]].
  destruct Hrel as [Hl Hrel']. destruct (Hl (trace s) "tcp" ":8080") as [l Hc].
  rewrite Hc in Hstep, Hp.
  apply (spawns_after_call s t' _ Hstep eq_refl).
  match type of Hstep with
  | _ = ?s1 =>
      apply (spawns_from_listening s1 t' l (conj Hl Hrel') eq_refl
               (nth_error_moved 0 t _ s t' Ht) Hp)
  end.
Qed.

Lemma spawns_from_start s t :
  reliable env ->
  status s = Running -> nth_error (goroutines s) 0 = Some t -> at_start t ->
  spawns_next env s.
Proof.
  intros Hrel Hs Ht H. destruct (step_start env s t Hs Ht H) as [t' [Hstep Hp]].
  apply (spawns_after_call s t' _ Hstep eq_refl).
  match type of Hstep with
  | _ = ?s1 =>
      apply (spawns_from_listen s1 t' Hrel eq_refl (nth_error_moved 0 t _ s t' Ht) Hp)
  end.
Qed.

(** With a reliable environment the accept loop goes on for ever: from
    every state of every run, [main] gets to its next [go] statement. *)
Lemma reliable_spawns sch : reliable env -> spawns_next env (run env sch boot).
Proof.
  intros Hrel. pose proof (reliable_running sch Hrel) as Hs.
  pose proof (Inv_run sch) as HI.
  assert (Hok : forall c, In c (calls_of 0 (trace (run env sch boot))) -> failed c = false).
  { intros c Hin. apply calls_of_In in Hin.
    apply (faithful_reliable _ Hrel (reached_faithful sch) _ _ Hin). }
  destruct (inv_main _ _ HI) as [t [Ht Hm]].
  remember (calls_of 0 (trace (run env sch boot))) as calls eqn:Hc.
  destruct Hm as [t H0 H|t H0 H|r t H0 H|e t H0|l t H|l r t H|l e t|l conn t H].
  - eapply spawns_from_start; eauto.
  - eapply spawns_from_listen; eauto.
  - destruct r as [l|e].
    + eapply spawns_from_listening; eauto.
    + assert (Hf : failed (CListen "tcp" ":8080" (inr e)) = false)
        by (apply Hok; right; left; reflexivity).
      discriminate Hf.
  - assert (Hf : failed (CListen "tcp" ":8080" (inr e)) = false)
      by (apply Hok; right; left; reflexivity).
    discriminate Hf.
  - destruct H as [H|H].
    + eapply spawns_from_accept; eauto.
    + eapply spawns_from_again; eauto.
  - destruct r as [conn|e].
    + eapply spawns_from_waiting; eauto.
    + assert (Hf : failed (CAccept l (inr e)) = false)
        by (apply Hok; rewrite !in_app_iff; right; right; left; reflexivity).
      discriminate Hf.
  - assert (Hf : failed (CAccept l (inr e)) = false)
      by (apply Hok; rewrite !in_app_iff; right; right; left; reflexivity).
    discriminate Hf.
  - eapply spawns_from_go; eauto.
Qed.

(** Where [main] is when its last call is an [Accept]. *)
Lemma last_two {A} (l : list A) (x y d : A) : last (l ++ [x; y]) d = y.
Proof.
  change (l ++ [x; y]) with (l ++ [x] ++ [y]). rewrite app_assoc. apply last_last.
Qed.

Lemma last_rounds l conns d :
  exists c, last (prologue l ++ rounds l conns) d = c /\ forall l' r, c <> CAccept l' r.
Proof.
  destruct conns as [|conn conns] using rev_ind.
  - eexists. split; [reflexivity|]. intros l' r. discriminate.
  - exists (CGo conn). split; [|intros l' r; discriminate].
    rewrite rounds_snoc, app_assoc.
    change (round l conn) with ([CAccept l (inl conn)] ++ [waiting conn; CGo conn]).
    rewrite app_assoc. apply last_two.
Qed.

Lemma main_at_accepted conns calls l r t :
  main_at conns (calls ++ [CAccept l r]) t -> after_accept l r t.
Proof.
  intros Hm. remember (calls ++ [CAccept l r]) as cs eqn:Hc.
  assert (Hlast : last cs (CGo 0%nat) = CAccept l r) by (rewrite Hc; apply last_last).
  destruct Hm as [t H0 H|t H0 H|r0 t H0 H|e t H0|l0 t H|l0 r0 t H|l0 e t|l0 conn t H].
  - destruct calls; discriminate Hc.
  - discriminate Hlast.
  - discriminate Hlast.
  - discriminate Hlast.
  - destruct (last_rounds l0 conns (CGo 0%nat)) as [c [Hl Hne]].
    rewrite Hl in Hlast. exfalso. apply (Hne l r Hlast).
  - rewrite app_assoc in Hc. apply app_inj_tail in Hc. destruct Hc as [_ Hc].
    inversion Hc; subst. exact H.
  - rewrite app_assoc, last_two in Hlast. discriminate Hlast.
  - rewrite app_assoc, last_two in Hlast. discriminate Hlast.
Qed.

Lemma calls_of_others g g' calls : g <> g' -> calls_of g (map (pair g') calls) = [].
Proof.
  intros Hne. apply calls_of_fresh. intros g2 c Hin.
  apply in_map_iff in Hin. destruct Hin as [c' [Heq _]]. congruence.
Qed.

Lemma calls_of_own g calls : calls_of g (map (pair g) calls) = calls.
Proof.
  induction calls as [|c calls IH]; auto.
  change (map (pair g) (c :: calls)) with ([(g, c)] ++ map (pair g) calls).
  rewrite calls_of_app, IH. unfold calls_of. simpl. rewrite Nat.eqb_refl. reflexivity.
Qed.

Lemma handed_app tr1 tr2 : handed (tr1 ++ tr2) = handed tr1 ++ handed tr2.
Proof. apply flat_map_app. Qed.




End WithEnv.

End Reach.

(** * The properties of the responder *)

Module ServerSpec.
Import Server Points Shape Scenarios GoFacts PointFacts Steps Reach.
Local Open Scope list_scope.

(** The bytes of the response, one by one. *)
Lemma response_bytes :
  response =
  [Byte.x48; Byte.x54; Byte.x54; Byte.x50; Byte.x2f; Byte.x31; Byte.x2e; Byte.x31;
   Byte.x20; Byte.x32; Byte.x30; Byte.x30; Byte.x20; Byte.x4f; Byte.x4b;
   Byte.x0d; Byte.x0a; Byte.x0d; Byte.x0a;
   Byte.x48; Byte.x65; Byte.x6c; Byte.x6c; Byte.x6f; Byte.x2c; Byte.x20;
   Byte.x57; Byte.x6f; Byte.x72; Byte.x6c; Byte.x64; Byte.x0d; Byte.x0a].
Proof. reflexivity. Qed.

Section WithEnv.
Variable env : Env.

(** The four steps of a handler whose read returns no error. *)
Lemma handler_serves sch g conn data :
  let s := run env sch boot in
  status s = Running ->
  nth_error (handed (trace s)) g = Some conn ->
  calls_of (S g) (trace s) = [] ->
  arrives env (trace s) conn = (data, None) ->
  let n := Z.of_nat (List.length (firstn 1024 data)) in
  let tr2 := trace s ++ [(S g, CRead conn 1024 n None); (S g, counted n)] in
  let w := writes env tr2 conn response in
  let tr3 := tr2 ++ [(S g, CWrite conn response (fst w) (snd w))] in
  let s' := run env (sch ++ [S g; S g; S g; S g]) boot in
  trace s' = tr3 ++ [(S g, CClose conn (closes env tr3 conn))]
  /\ status s' = Running
  /\ calls_of (S g) (trace s') = served conn n (fst w) (snd w) (closes env tr3 conn).
Proof.
  intros s Hs Hg Hc Ha n tr2 w tr3 s'.
  destruct (fresh_handler env sch g conn Hg Hc) as [t [Ht Hp]].
  destruct (handler_run_ok env (S g) s t conn data Hs Ht Hp Ha) as [t' [Hrun _]].
  unfold s'. rewrite run_app. fold s. rewrite Hrun. prj.
  fold n. fold tr2. fold w. fold tr3. split; [reflexivity|]. split; [reflexivity|].
  assert (Htr : tr3 ++ [(S g, CClose conn (closes env tr3 conn))] =
                trace s ++ map (pair (S g))
                               (served conn n (fst w) (snd w) (closes env tr3 conn))).
  { unfold tr3 at 1, tr2 at 1. rewrite <- !app_assoc. reflexivity. }
  rewrite Htr, calls_of_app, Hc, calls_of_own. reflexivity.
Qed.


End WithEnv.















(** C8. The handler of a connection reads once, as its first call, into a
    buffer of 1024 bytes: the read returns at most 1024 bytes, and no call
    that follows it, in any run, is a read. *)
Theorem handler_reads_once
    (env : Env) (sch : list nat) (g : nat) (conn : Conn) :
  nth_error (handed (trace (run env sch boot))) g = Some conn ->
  (calls_of (S g) (trace (run env sch boot)) = []
   \/ exists n err rest,
        calls_of (S g) (trace (run env sch boot)) = CRead conn 1024 n err :: rest
        /\ 0 <= n <= 1024
        /\ filter is_read rest = [])
  /\ (status (run env sch boot) = Running ->
      calls_of (S g) (trace (run env sch boot)) = [] ->
      exists n err,
        calls_of (S g) (trace (run env (sch ++ [S g]) boot)) = [CRead conn 1024 n err]).
Proof.
  intros Hg. split.
  - destruct (reached_handler env sch g conn Hg) as [t [_ Hh]].
    destruct Hh; [left; reflexivity | right ..];
      eexists _, _, _; (split; [reflexivity | split; [assumption | reflexivity]]).
  - intros Hs Hc.
    destruct (fresh_handler env sch g conn Hg Hc) as [t [Ht Hp]].
    destruct (arrives env (trace (run env sch boot)) conn) as [data err] eqn:Ha.
    destruct (step_read env (S g) _ t conn data err Hs Ht Hp Ha) as [t' [Hstep _]].
    eexists _, _. rewrite run_snoc, Hstep. unfold moved. prj.
    rewrite calls_of_snoc, Nat.eqb_refl, Hc. reflexivity.
Qed.

Lemma handler_reads_once_witness :
  (calls_of 1 (trace (run friendly (first_go ++ [1; 1; 1]%nat) boot)) = []
   \/ exists n err rest,
        calls_of 1 (trace (run friendly (first_go ++ [1; 1; 1]%nat) boot)) =
        CRead 3%nat 1024 n err :: rest
        /\ 0 <= n <= 1024
        /\ filter is_read rest = [])
  /\ (exists n err,
        calls_of 1 (trace (run friendly (first_go ++ [1%nat]) boot)) =
        [CRead 3%nat 1024 n err]).
Proof.
  split.
  - apply (handler_reads_once friendly (first_go ++ [1; 1; 1]%nat) 0 3%nat).
    reflexivity.
  - apply (handler_reads_once friendly first_go 0 3%nat); reflexivity.
Defined.

(** C4 (amended). A write failure (or a close failure) in a handler never
    reaches the listener or another handler. As long as no listen, accept
    or read returns an error, whatever the writes and closes return: the
    process keeps running; every handler that was started gets to the end
    of its read, log, write and close in at most four steps of its own; and
    the accept loop goes on, so that the next client that connects is
    handed to a new goroutine that reads, logs, writes the response and
    closes. *)
Theorem write_failures_stay_local (env : Env) (sch : list nat) :
  reliable env ->
  status (run env sch boot) = Running
  /\ (forall g conn,
        nth_error (handed (trace (run env sch boot))) g = Some conn ->
        exists j n wn werr cerr,
          (j <= 4)%nat
          /\ calls_of (S g) (trace (run env (sch ++ repeat (S g) j) boot)) =
             [CRead conn 1024 n None; CInfo ("number of bytes" ++ Itoa n) [];
              CWrite conn response wn werr; CClose conn cerr])
  /\ exists k conn n wn werr cerr,
       nth_error (handed (trace (run env (sch ++ repeat 0%nat k) boot)))
                 (List.length (handed (trace (run env sch boot)))) = Some conn
       /\ calls_of (S (List.length (handed (trace (run env sch boot)))))
                   (trace (run env ((sch ++ repeat 0%nat k) ++
                                    repeat (S (List.length (handed (trace (run env sch boot))))) 4)
                               boot)) =
          [CRead conn 1024 n None; CInfo ("number of bytes" ++ Itoa n) [];
           CWrite conn response wn werr; CClose conn cerr].
Proof.
  intros Hrel. split; [apply reliable_running, Hrel|]. split.
  { intros g conn Hg.
    destruct (reliable_finishes env sch g conn Hrel Hg)
      as [j [more [Hj [_ [Htr [n [wn [werr [cerr Hserved]]]]]]]]].
    exists j, n, wn, werr, cerr. split; [exact Hj|].
    rewrite run_app, Htr, calls_of_app, calls_of_own. exact Hserved. }
  destruct (reliable_spawns env sch Hrel) as [k [calls [conn [H1 [H2 H3]]]]].
  rewrite <- run_app in H1, H2, H3.
  set (g := List.length (handed (trace (run env sch boot)))) in *.
  assert (Hg : nth_error (handed (trace (run env (sch ++ repeat 0%nat k) boot))) g
               = Some conn).
  { rewrite H3, nth_error_app2 by (unfold g; lia). unfold g.
    rewrite Nat.sub_diag. reflexivity. }
  assert (Hc : calls_of (S g) (trace (run env (sch ++ repeat 0%nat k) boot)) = []).
  { rewrite H2, calls_of_app, calls_of_others by discriminate.
    rewrite app_nil_r. apply calls_of_fresh. intros g' c Hin.
    pose proof (Inv_run env sch) as HI. apply (inv_trace _ _ HI) in Hin.
    rewrite (inv_length _ _ HI) in Hin. fold g in Hin. lia. }
  destruct (arrives env (trace (run env (sch ++ repeat 0%nat k) boot)) conn)
    as [data err] eqn:Ha.
  assert (err = None).
  { destruct Hrel as [_ [_ Hr]].
    specialize (Hr (trace (run env (sch ++ repeat 0%nat k) boot)) conn).
    rewrite Ha in Hr. exact Hr. }
  subst err.
  destruct (handler_serves env _ g conn data H1 Hg Hc Ha) as [_ [_ H]].
  exists k, conn. eexists _, _, _, _. split; [exact Hg | exact H].
Qed.

(** An instance: a run of [broken_pipe] in which the first handler has been
    through a failed write. *)
Lemma write_failures_stay_local_witness :
  status (run broken_pipe (first_go ++ [1; 1; 1]%nat) boot) = Running
  /\ (forall g conn,
        nth_error (handed (trace (run broken_pipe (first_go ++ [1; 1; 1]%nat) boot))) g
        = Some conn ->
        exists j n wn werr cerr,
          (j <= 4)%nat
          /\ calls_of (S g)
                (trace (run broken_pipe ((first_go ++ [1; 1; 1]%nat) ++ repeat (S g) j) boot)) =
             [CRead conn 1024 n None; CInfo ("number of bytes" ++ Itoa n) [];
              CWrite conn response wn werr; CClose conn cerr])
  /\ exists k conn n wn werr cerr,
       nth_error
         (handed (trace (run broken_pipe ((first_go ++ [1; 1; 1]%nat) ++ repeat 0%nat k) boot)))
         (List.length (handed (trace (run broken_pipe (first_go ++ [1; 1; 1]%nat) boot))))
       = Some conn
       /\ calls_of
            (S (List.length (handed (trace (run broken_pipe (first_go ++ [1; 1; 1]%nat) boot)))))
            (trace (run broken_pipe
                        (((first_go ++ [1; 1; 1]%nat) ++ repeat 0%nat k) ++
                         repeat (S (List.length
                                      (handed (trace (run broken_pipe
                                                          (first_go ++ [1; 1; 1]%nat) boot))))) 4)
                        boot)) =
          [CRead conn 1024 n None; CInfo ("number of bytes" ++ Itoa n) [];
           CWrite conn response wn werr; CClose conn cerr].
Proof.
  apply (write_failures_stay_local broken_pipe (first_go ++ [1; 1; 1]%nat)).
  split; [|split].
  - intros tr network address. exists 3%nat. reflexivity.
  - intros tr l. exists (List.length tr). reflexivity.
  - intros tr conn. reflexivity.
Defined.

(** C4 as stated fails for read errors: when the first client hangs up, its
    handler ends the process; whatever is scheduled afterwards, no other
    connection is accepted and no response is ever written. *)
Lemma read_error_stops_the_server :
  status (run first_hangs_up (first_go ++ [1; 1]%nat) boot) = Exited 1
  /\ handed (trace (run first_hangs_up (first_go ++ [1; 1]%nat) boot)) = [3%nat]
  /\ filter is_write (map snd (trace (run first_hangs_up (first_go ++ [1; 1]%nat) boot))) = []
  /\ forall sch',
       run first_hangs_up ((first_go ++ [1; 1]%nat) ++ sch') boot =
       run first_hangs_up (first_go ++ [1; 1]%nat) boot.
Proof.
  repeat split; try reflexivity.
  intros sch'. rewrite run_app. apply (run_exited first_hangs_up sch' _ 1). reflexivity.
Qed.

(** C5 (amended). When [Accept] fails with any error, temporary or not, the
    next step of [main] is [log.Fatalf], which ends the whole process with
    status 1 (it is not a panic): the loop does not go on to another
    iteration and nothing runs afterwards. *)
Theorem accept_error_is_fatal
    (env : Env) (sch : list nat) (calls : list Call) (l : Listener) (e : error) :
  status (run env sch boot) = Running ->
  calls_of 0 (trace (run env sch boot)) = calls ++ [CAccept l (inr e)] ->
  trace (run env (sch ++ [0%nat]) boot) =
    trace (run env sch boot) ++
      [(0%nat, CFatalf ("unable to get listener. error: %v" ++ Error e))]
  /\ status (run env (sch ++ [0%nat]) boot) = Exited 1
  /\ forall sch', run env ((sch ++ [0%nat]) ++ sch') boot = run env (sch ++ [0%nat]) boot.
Proof.
  intros Hs Hc. pose proof (Inv_run env sch) as HI.
  destruct (inv_main _ _ HI) as [t [Ht Hm]]. rewrite Hc in Hm.
  apply main_at_accepted in Hm. simpl in Hm.
  pose proof (step_fatal env 0 _ t _ Hs Ht Hm) as Hstep.
  rewrite run_snoc, Hstep. unfold killed. prj.
  split; [reflexivity|]. split; [reflexivity|].
  intros sch'. rewrite run_app, run_snoc, Hstep.
  apply (run_exited env sch' _ 1). reflexivity.
Qed.

Lemma accept_error_is_fatal_witness :
  trace (run flaky ([0; 0; 0; 0]%nat ++ [0%nat]) boot) =
    trace (run flaky [0; 0; 0; 0]%nat boot) ++
      [(0%nat, CFatalf ("unable to get listener. error: %v" ++ Error EMFILE))]
  /\ status (run flaky ([0; 0; 0; 0]%nat ++ [0%nat]) boot) = Exited 1
  /\ forall sch',
       run flaky (([0; 0; 0; 0]%nat ++ [0%nat]) ++ sch') boot =
       run flaky ([0; 0; 0; 0]%nat ++ [0%nat]) boot.
Proof.
  apply (accept_error_is_fatal flaky [0; 0; 0; 0]%nat (prologue 3%nat) 3%nat EMFILE);
    reflexivity.
Defined.

(** C5 as stated fails: a temporary accept error ends the process with
    status 1; the second call of [Accept], which would have succeeded, is
    never made. *)
Lemma temporary_accept_error_exits :
  Temporary EMFILE = true
  /\ accepts flaky (trace (run flaky [0; 0; 0; 0; 0]%nat boot)) 3%nat = inl 5%nat
  /\ status (run flaky [0; 0; 0; 0; 0]%nat boot) = Exited 1
  /\ calls_of 0 (trace (run flaky [0; 0; 0; 0; 0]%nat boot)) =
     prologue 3%nat ++
     [CAccept 3%nat (inr EMFILE);
      CFatalf "unable to get listener. error: %vaccept tcp [::]:8080: accept4: too many open files"]
  /\ forall sch',
       run flaky ([0; 0; 0; 0; 0]%nat ++ sch') boot = run flaky [0; 0; 0; 0; 0]%nat boot.
Proof.
  repeat split; try reflexivity.
  intros sch'. rewrite run_app. apply (run_exited flaky sch' _ 1). reflexivity.
Qed.

End ServerSpec.

(** * More on the runs of the responder *)

Module ServerMore.
Import Server Points Shape Scenarios Ledger GoFacts PointFacts Steps Reach.
Local Open Scope list_scope.

Lemma last_rounds_plain l conns d :
  is_fatal (last (prologue l ++ rounds l conns) d) = false.
Proof.
  destruct conns as [|conn conns _] using rev_ind.
  - reflexivity.
  - rewrite rounds_snoc, app_assoc.
    change (round l conn) with ([CAccept l (inl conn)] ++ [waiting conn; CGo conn]).
    rewrite app_assoc, last_two. reflexivity.
Qed.

Lemma snoc2 {A} (l : list A) (x y : A) : l ++ [x; y] = (l ++ [x]) ++ [y].
Proof. rewrite <- app_assoc. reflexivity. Qed.

(** Where [main] is when its last call is [log.Fatalf]. *)
Lemma main_at_fatal conns calls format t :
  main_at conns (calls ++ [CFatalf format]) t ->
  exists c e, last calls (CGo 0%nat) = c /\ error_of c = Some e
              /\ format = (fatal_prefix c ++ Error e)%string.
Proof.
  intros Hm. remember (calls ++ [CFatalf format]) as cs eqn:Hc.
  assert (Hlast : last cs (CGo 0%nat) = CFatalf format) by (rewrite Hc; apply last_last).
  destruct Hm as [t H0 H|t H0 H|r0 t H0 H|e t H0|l0 t H|l0 r0 t H|l0 e t|l0 conn t H].
  - destruct calls; discriminate Hc.
  - discriminate Hlast.
  - discriminate Hlast.
  - change [CPrint "Server starting"; CListen "tcp" ":8080" (inr e); accept_fatal e]
      with ([CPrint "Server starting"; CListen "tcp" ":8080" (inr e)] ++ [accept_fatal e])
      in Hc.
    apply app_inj_tail in Hc. destruct Hc as [Hc Hf]. subst calls.
    inversion Hf; subst. eexists _, e. repeat split; reflexivity.
  - pose proof (last_rounds_plain l0 conns (CGo 0%nat)) as Hp.
    rewrite Hlast in Hp. discriminate Hp.
  - rewrite app_assoc, last_last in Hlast. discriminate Hlast.
  - rewrite app_assoc, snoc2 in Hc.
    apply app_inj_tail in Hc. destruct Hc as [Hc Hf]. subst calls.
    inversion Hf; subst. exists (CAccept l0 (inr e)), e.
    rewrite last_last. repeat split; reflexivity.
  - rewrite app_assoc, last_two in Hlast. discriminate Hlast.
Qed.

(** Where a handler is when its last call is [log.Fatalf]. *)
Lemma handler_at_fatal conn calls format t :
  handler_at conn (calls ++ [CFatalf format]) t ->
  exists n e, calls = [CRead conn 1024 n (Some e)]
              /\ format = ("error reading. error: %v" ++ Error e)%string.
Proof.
  intros Hh. remember (calls ++ [CFatalf format]) as cs eqn:Hc.
  assert (Hlast : last cs (CGo 0%nat) = CFatalf format) by (rewrite Hc; apply last_last).
  destruct Hh as [t H|n err t Hn H|n e t Hn|n t Hn H|n wn werr t Hn H|n wn werr cerr t Hn H];
    simpl in Hlast; unfold counted in Hlast; try discriminate Hlast.
  change [CRead conn 1024 n (Some e); read_fatal e]
    with ([CRead conn 1024 n (Some e)] ++ [read_fatal e]) in Hc.
  apply app_inj_tail in Hc. destruct Hc as [Hc Hf]. subst calls.
  inversion Hf; subst. eexists _, _. split; reflexivity.
Qed.

(** The goroutine of a call in the trace of a run: [main], or the handler
    of a connection that was handed over. *)
Lemma reached_call env sch g c :
  In (S g, c) (trace (run env sch boot)) ->
  exists conn t,
    nth_error (handed (trace (run env sch boot))) g = Some conn
    /\ nth_error (goroutines (run env sch boot)) (S g) = Some t
    /\ handler_at conn (calls_of (S g) (trace (run env sch boot))) t.
Proof.
  intros Hin. apply calls_of_In in Hin.
  destruct (reached_caller env sch g c Hin) as [conn Hg].
  destruct (reached_handler env sch g conn Hg) as [t [Ht Hh]].
  exists conn, t. auto.
Qed.

(** X1. When the process has exited, its status is 1, the last call of the
    trace is the [log.Fatalf] of some goroutine, the call of that goroutine
    before it is a listen, accept or read that returned an error, and the
    message is the text of the program for that call followed by the text
    of that error. *)
Theorem exit_has_a_cause (env : Env) (sch : list nat) (code : Z) :
  status (run env sch boot) = Exited code ->
  code = 1
  /\ exists tr g c e,
       trace (run env sch boot) = tr ++ [(g, CFatalf (fatal_prefix c ++ Error e))]
       /\ last (calls_of g tr) (CGo 0%nat) = c
       /\ error_of c = Some e.
Proof.
  intros Hs. pose proof (Inv_run env sch) as HI.
  pose proof (inv_status _ _ HI) as Hst. unfold status_ok in Hst. rewrite Hs in Hst.
  destruct Hst as [Hcode [tr [g [format Htr]]]]. split; [exact Hcode|].
  assert (Hcalls : calls_of g (trace (run env sch boot)) = calls_of g tr ++ [CFatalf format])
    by (rewrite Htr, calls_of_snoc, Nat.eqb_refl; reflexivity).
  destruct g as [|g].
  - destruct (inv_main _ _ HI) as [t [_ Hm]]. rewrite Hcalls in Hm.
    destruct (main_at_fatal _ _ _ _ Hm) as [c [e [Hl [He Hf]]]].
    exists tr, 0%nat, c, e. rewrite Htr, Hf. auto.
  - destruct (reached_call env sch g (CFatalf format)) as [conn [t [_ [_ Hh]]]].
    { rewrite Htr. apply in_or_app. right. left. reflexivity. }
    rewrite Hcalls in Hh.
    destruct (handler_at_fatal _ _ _ _ Hh) as [n [e [Hc Hf]]].
    exists tr, (S g), (CRead conn 1024 n (Some e)), e. rewrite Htr, Hf, Hc. auto.
Qed.

Lemma exit_has_a_cause_witness :
  1 = 1
  /\ exists tr g c e,
       trace (run reset (first_go ++ [1; 1]%nat) boot) =
       tr ++ [(g, CFatalf (fatal_prefix c ++ Error e))]
       /\ last (calls_of g tr) (CGo 0%nat) = c
       /\ error_of c = Some e.
Proof.
  apply (exit_has_a_cause reset (first_go ++ [1; 1]%nat) 1). reflexivity.
Defined.

(** The messages of [log.Fatalf] in the calls of [main] and of a handler. *)
Lemma main_fatal_format conns calls t format :
  main_at conns calls t -> In (CFatalf format) calls ->
  exists e, format = ("unable to get listener. error: %v" ++ Error e)%string.
Proof.
  intros Hm Hin.
  destruct Hm as [t H0 H|t H0 H|r0 t H0 H|e t H0|l0 t H|l0 r0 t H|l0 e t|l0 conn t H].
  - destruct Hin.
  - destruct Hin as [Heq|[]]. discriminate Heq.
  - destruct Hin as [Heq|[Heq|[]]]; discriminate Heq.
  - destruct Hin as [Heq|[Heq|[Heq|[]]]]; try discriminate Heq.
    inversion Heq. exists e. reflexivity.
  - apply in_app_or in Hin. destruct Hin as [Hin|Hin].
    + apply prologue_plain in Hin. discriminate Hin.
    + apply rounds_plain in Hin. discriminate Hin.
  - apply in_app_or in Hin. destruct Hin as [Hin|Hin];
      [apply prologue_plain in Hin; discriminate Hin|].
    apply in_app_or in Hin. destruct Hin as [Hin|Hin];
      [apply rounds_plain in Hin; discriminate Hin|].
    destruct Hin as [Heq|[]]. discriminate Heq.
  - apply in_app_or in Hin. destruct Hin as [Hin|Hin];
      [apply prologue_plain in Hin; discriminate Hin|].
    apply in_app_or in Hin. destruct Hin as [Hin|Hin];
      [apply rounds_plain in Hin; discriminate Hin|].
    destruct Hin as [Heq|[Heq|[]]]; try discriminate Heq.
    inversion Heq. exists e. reflexivity.
  - apply in_app_or in Hin. destruct Hin as [Hin|Hin];
      [apply prologue_plain in Hin; discriminate Hin|].
    apply in_app_or in Hin. destruct Hin as [Hin|Hin];
      [apply rounds_plain in Hin; discriminate Hin|].
    destruct Hin as [Heq|[Heq|[]]]; discriminate Heq.
Qed.

Lemma handler_fatal_format conn calls t format :
  handler_at conn calls t -> In (CFatalf format) calls ->
  exists e, format = ("error reading. error: %v" ++ Error e)%string.
Proof.
  intros Hh Hin.
  destruct Hh as [t H|n err t Hn H|n e t Hn|n t Hn H|n wn werr t Hn H|n wn werr cerr t Hn H];
    simpl in Hin;
    repeat match goal with
           | H : _ \/ _ |- _ => destruct H
           | H : False |- _ => destruct H
           | H : _ = CFatalf _ |- _ => first [discriminate H | inversion H; clear H]
           end.
  exists e. reflexivity.
Qed.

(** X2. The process never exits with status 0, and the statement after the
    accept loop, [log.Fatalf("server clossed")], is never executed: in no
    run does the trace hold that call. *)
Theorem loop_exit_is_unreachable (env : Env) (sch : list nat) :
  (status (run env sch boot) = Running \/ status (run env sch boot) = Exited 1)
  /\ forall g, ~ In (g, CFatalf "server clossed") (trace (run env sch boot)).
Proof.
  pose proof (Inv_run env sch) as HI. split.
  - pose proof (inv_status _ _ HI) as Hst. unfold status_ok in Hst.
    destruct (status (run env sch boot)) as [|code]; [left; reflexivity|].
    destruct Hst as [-> _]. right. reflexivity.
  - intros g Hin. pose proof Hin as Hin'. apply calls_of_In in Hin'.
    destruct g as [|g].
    + destruct (inv_main _ _ HI) as [t [_ Hm]].
      destruct (main_fatal_format _ _ _ _ Hm Hin') as [e He]. discriminate He.
    + destruct (reached_call env sch g _ Hin) as [conn [t [_ [_ Hh]]]].
      destruct (handler_fatal_format _ _ _ _ Hh Hin') as [e He]. discriminate He.
Qed.

Lemma last_rounds_cases l conns d :
  last (prologue l ++ rounds l conns) d = CInfo "Server listening" [("listner", VListener l)]
  \/ exists conn, last (prologue l ++ rounds l conns) d = CGo conn.
Proof.
  destruct conns as [|conn conns _] using rev_ind.
  - left. reflexivity.
  - right. exists conn. rewrite rounds_snoc, app_assoc.
    change (round l conn) with ([CAccept l (inl conn)] ++ [waiting conn; CGo conn]).
    rewrite app_assoc. apply last_two.
Qed.

(** Where [main] is when its last call is [Listen]. *)
Lemma main_at_listened conns calls network address r t :
  main_at conns (calls ++ [CListen network address r]) t ->
  conns = [] /\ calls = [CPrint "Server starting"]
  /\ network = "tcp" /\ address = ":8080" /\ after_listen r t.
Proof.
  intros Hm. remember (calls ++ [CListen network address r]) as cs eqn:Hc.
  assert (Hlast : last cs (CGo 0%nat) = CListen network address r)
    by (rewrite Hc; apply last_last).
  destruct Hm as [t H0 H|t H0 H|r0 t H0 H|e t H0|l0 t H|l0 r0 t H|l0 e t|l0 conn t H].
  - destruct calls; discriminate Hc.
  - discriminate Hlast.
  - change [CPrint "Server starting"; CListen "tcp" ":8080" r0]
      with ([CPrint "Server starting"] ++ [CListen "tcp" ":8080" r0]) in Hc.
    apply app_inj_tail in Hc. destruct Hc as [Hc Hf]. inversion Hf; subst. auto.
  - discriminate Hlast.
  - destruct (last_rounds_cases l0 conns (CGo 0%nat)) as [Hl|[conn Hl]];
      rewrite Hl in Hlast; discriminate Hlast.
  - rewrite app_assoc, last_last in Hlast. discriminate Hlast.
  - rewrite app_assoc, last_two in Hlast. discriminate Hlast.
  - rewrite app_assoc, last_two in Hlast. discriminate Hlast.
Qed.

Lemma only_main (tr : Trace) :
  (forall g c, In (g, c) tr -> g = 0%nat) -> tr = map (pair 0%nat) (calls_of 0 tr).
Proof.
  induction tr as [|[g c] tr IH]; intros H; [reflexivity|].
  assert (g = 0%nat) by (apply (H g c); left; reflexivity). subst g.
  change ((0%nat, c) :: tr) with ([(0%nat, c)] ++ tr).
  rewrite calls_of_app. simpl. f_equal. apply IH.
  intros g c' Hin. apply (H g c'). right. exact Hin.
Qed.

(** X3. When [net.Listen] fails, the next step of [main] is [log.Fatalf]
    with the text of the error, and the process exits with status 1: the
    whole trace, for ever, is the print, the listen and that call; [Accept]
    is never called. *)
Theorem listen_error_is_fatal
    (env : Env) (sch : list nat) (calls : list Call) (network address : string)
    (e : error) (sch' : list nat) :
  status (run env sch boot) = Running ->
  calls_of 0 (trace (run env sch boot)) = calls ++ [CListen network address (inr e)] ->
  trace (run env ((sch ++ [0%nat]) ++ sch') boot) =
    [(0%nat, CPrint "Server starting"); (0%nat, CListen "tcp" ":8080" (inr e));
     (0%nat, CFatalf ("unable to get listener. error: %v" ++ Error e))]
  /\ status (run env ((sch ++ [0%nat]) ++ sch') boot) = Exited 1.
Proof.
  intros Hs Hc. pose proof (Inv_run env sch) as HI.
  destruct (inv_main _ _ HI) as [t [Ht Hm]]. rewrite Hc in Hm.
  destruct (main_at_listened _ _ _ _ _ _ Hm) as [Hconns [Hcalls [-> [-> Hp]]]].
  simpl in Hp. subst calls.
  assert (Htr : trace (run env sch boot) =
                [(0%nat, CPrint "Server starting"); (0%nat, CListen "tcp" ":8080" (inr e))]).
  { rewrite (only_main (trace (run env sch boot))).
    - rewrite Hc. reflexivity.
    - intros g c Hin. apply (inv_trace _ _ HI) in Hin.
      rewrite (inv_length _ _ HI), Hconns in Hin. simpl in Hin. lia. }
  pose proof (step_fatal env 0 _ t _ Hs Ht Hp) as Hstep.
  rewrite run_app, run_snoc, Hstep.
  rewrite (run_exited env sch' _ 1) by reflexivity.
  prj. rewrite Htr. split; reflexivity.
Qed.

Lemma listen_error_is_fatal_witness :
  trace (run no_port (([0; 0]%nat ++ [0%nat]) ++ [0; 1; 0]%nat) boot) =
    [(0%nat, CPrint "Server starting"); (0%nat, CListen "tcp" ":8080" (inr EADDRINUSE));
     (0%nat, CFatalf ("unable to get listener. error: %v" ++ Error EADDRINUSE))]
  /\ status (run no_port (([0; 0]%nat ++ [0%nat]) ++ [0; 1; 0]%nat) boot) = Exited 1.
Proof.
  apply (listen_error_is_fatal no_port [0; 0]%nat [CPrint "Server starting"]
           "tcp" ":8080" EADDRINUSE [0; 1; 0]%nat); reflexivity.
Defined.

Lemma rounds_accept l0 conns l r : In (CAccept l r) (rounds l0 conns) -> l = l0.
Proof.
  unfold rounds. rewrite in_flat_map. intros [conn [_ Hin]].
  simpl in Hin. destruct Hin as [Heq|[Heq|[Heq|[]]]]; try discriminate Heq.
  inversion Heq. reflexivity.
Qed.

Lemma main_accept_listener conns calls t l r :
  main_at conns calls t -> In (CAccept l r) calls ->
  In (CListen "tcp" ":8080" (inl l)) calls.
Proof.
  intros Hm Hin.
  assert (Hpro : forall l0, In (CListen "tcp" ":8080" (inl l0)) (prologue l0))
    by (intros l0; right; left; reflexivity).
  assert (Hnot : forall l0, In (CAccept l r) (prologue l0) -> False)
    by (intros l0 [Heq|[Heq|[Heq|[]]]]; discriminate Heq).
  destruct Hm as [t H0 H|t H0 H|r0 t H0 H|e t H0|l0 t H|l0 r0 t H|l0 e t|l0 conn t H].
  - destruct Hin.
  - destruct Hin as [Heq|[]]. discriminate Heq.
  - destruct Hin as [Heq|[Heq|[]]]; discriminate Heq.
  - destruct Hin as [Heq|[Heq|[Heq|[]]]]; discriminate Heq.
  - apply in_or_app. left.
    apply in_app_or in Hin. destruct Hin as [Hin|Hin]; [destruct (Hnot _ Hin)|].
    apply rounds_accept in Hin. subst. apply Hpro.
  - apply in_or_app. left.
    apply in_app_or in Hin. destruct Hin as [Hin|Hin]; [destruct (Hnot _ Hin)|].
    apply in_app_or in Hin. destruct Hin as [Hin|Hin].
    + apply rounds_accept in Hin. subst. apply Hpro.
    + destruct Hin as [Heq|[]]. inversion Heq. apply Hpro.
  - apply in_or_app. left.
    apply in_app_or in Hin. destruct Hin as [Hin|Hin]; [destruct (Hnot _ Hin)|].
    apply in_app_or in Hin. destruct Hin as [Hin|Hin].
    + apply rounds_accept in Hin. subst. apply Hpro.
    + destruct Hin as [Heq|[Heq|[]]]; try discriminate Heq. inversion Heq. apply Hpro.
  - apply in_or_app. left.
    apply in_app_or in Hin. destruct Hin as [Hin|Hin]; [destruct (Hnot _ Hin)|].
    apply in_app_or in Hin. destruct Hin as [Hin|Hin].
    + apply rounds_accept in Hin. subst. apply Hpro.
    + destruct Hin as [Heq|[Heq|[]]]; try discriminate Heq. inversion Heq. apply Hpro.
Qed.

(** X4. Only [main] calls [Accept], and only on the listener that
    [net.Listen("tcp", ":8080")] returned, after that call: no handler ever
    touches the listening socket. *)
Theorem accept_is_on_the_listener
    (env : Env) (sch : list nat) (g : nat) (l : Listener) (r : Conn + error) :
  In (g, CAccept l r) (trace (run env sch boot)) ->
  g = 0%nat /\ In (0%nat, CListen "tcp" ":8080" (inl l)) (trace (run env sch boot)).
Proof.
  intros Hin. pose proof (Inv_run env sch) as HI. destruct g as [|g].
  - split; [reflexivity|]. apply calls_of_In. apply calls_of_In in Hin.
    destruct (inv_main _ _ HI) as [t [_ Hm]].
    apply (main_accept_listener _ _ _ _ _ Hm Hin).
  - exfalso. destruct (reached_call env sch g _ Hin) as [conn [t [_ [_ Hh]]]].
    apply calls_of_In in Hin.
    destruct Hh; simpl in Hin;
      repeat match goal with
             | H : _ \/ _ |- _ => destruct H
             | H : False |- _ => destruct H
             | H : _ = CAccept _ _ |- _ => discriminate H
             end.
Qed.

Lemma accept_is_on_the_listener_witness :
  0%nat = 0%nat
  /\ In (0%nat, CListen "tcp" ":8080" (inl 3%nat))
        (trace (run friendly (first_go ++ [1; 0; 0; 1]%nat) boot)).
Proof.
  apply (accept_is_on_the_listener friendly (first_go ++ [1; 0; 0; 1]%nat)
           0%nat 3%nat (inl 3%nat)).
  right. right. right. left. reflexivity.
Defined.




Lemma main_conn_free conns calls t c :
  main_at conns calls t -> In c calls -> conn_of c = None.
Proof.
  intros Hm Hin.
  assert (Hpro : forall l0, In c (prologue l0) -> conn_of c = None)
    by (intros l0 [<-|[<-|[<-|[]]]]; reflexivity).
  assert (Hrounds : forall l0 cs, In c (rounds l0 cs) -> conn_of c = None).
  { intros l0 cs. unfold rounds. rewrite in_flat_map. intros [conn [_ Hr]].
    destruct Hr as [<-|[<-|[<-|[]]]]; reflexivity. }
  destruct Hm as [t H0 H|t H0 H|r0 t H0 H|e t H0|l0 t H|l0 r0 t H|l0 e t|l0 conn t H];
    repeat (apply in_app_or in Hin; destruct Hin as [Hin|Hin]; eauto);
    simpl in Hin;
    repeat match goal with
           | H : _ \/ _ |- _ => destruct H
           | H : False |- _ => destruct H
           | H : _ = c |- _ => subst c
           end; try reflexivity; eauto.
Qed.

Lemma handler_keeps_to_conn conn calls t c :
  handler_at conn calls t -> In c calls -> handler_call conn c = true.
Proof.
  intros Hh Hin.
  destruct Hh; simpl in Hin;
    repeat match goal with
           | H : _ \/ _ |- _ => destruct H
           | H : False |- _ => destruct H
           | H : _ = c |- _ => subst c
           end; simpl; try reflexivity; apply Nat.eqb_refl.
Qed.

(** X6. [main] never reads, writes or closes a connection; and each call of
    a handler is a read, write or close on the one connection that was
    handed to it, or a call to a logger: no handler touches the connection
    of another, the listener, or starts a goroutine. *)
Theorem goroutines_keep_to_their_own
    (env : Env) (sch : list nat) (g : nat) (c : Call) :
  In (g, c) (trace (run env sch boot)) ->
  match g with
  | O => conn_of c = None
  | S g' =>
      exists conn,
        nth_error (handed (trace (run env sch boot))) g' = Some conn
        /\ handler_call conn c = true
  end.
Proof.
  intros Hin. destruct g as [|g].
  - destruct (inv_main _ _ (Inv_run env sch)) as [t [_ Hm]].
    apply calls_of_In in Hin. apply (main_conn_free _ _ _ _ Hm Hin).
  - destruct (reached_call env sch g c Hin) as [conn [t [Hg [_ Hh]]]].
    exists conn. split; [exact Hg|].
    apply calls_of_In in Hin. apply (handler_keeps_to_conn _ _ _ _ Hh Hin).
Qed.

Lemma goroutines_keep_to_their_own_witness :
  conn_of (CGo 3%nat) = None
  /\ exists conn,
       nth_error
         (handed (trace (run friendly (first_go ++ [0; 0; 0; 0; 2; 1; 2]%nat) boot))) 1
       = Some conn
       /\ handler_call conn (CRead 6%nat 1024 4 None) = true.
Proof.
  split.
  - apply (goroutines_keep_to_their_own
             friendly (first_go ++ [0; 0; 0; 0; 2; 1; 2]%nat) 0%nat (CGo 3%nat)).
    do 5 right. left. reflexivity.
  - apply (goroutines_keep_to_their_own
             friendly (first_go ++ [0; 0; 0; 0; 2; 1; 2]%nat) 2%nat
             (CRead 6%nat 1024 4 None)).
    do 9 right. left. reflexivity.
Defined.

Lemma repeat_add {A} (x : A) n m : repeat x (n + m) = repeat x n ++ repeat x m.
Proof. induction n as [|n IH]; simpl; [reflexivity | rewrite IH; reflexivity]. Qed.

(** X7. The accept loop has no bound and waits for no handler: with an
    environment in which listen, accept and read do not fail, for every
    number [n] some number of steps of [main] alone hands [n] connections
    to [n] goroutines, none of which has made a call yet, and the process
    is running. *)
Theorem accept_loop_waits_for_no_handler (env : Env) (n : nat) :
  reliable env ->
  exists k,
    status (run env (repeat 0%nat k) boot) = Running
    /\ List.length (handed (trace (run env (repeat 0%nat k) boot))) = n
    /\ forall g, calls_of (S g) (trace (run env (repeat 0%nat k) boot)) = [].
Proof.
  intros Hrel. induction n as [|n [k [Hs [Hn Hidle]]]].
  - exists 0%nat. repeat split; reflexivity.
  - destruct (reliable_spawns env (repeat 0%nat k) Hrel)
      as [k' [calls [conn [H1 [H2 H3]]]]].
    rewrite <- run_app, <- repeat_add in H1, H2, H3.
    exists (k + k')%nat. split; [exact H1|]. split.
    + rewrite H3, length_app, Hn. simpl. lia.
    + intros g. rewrite H2, calls_of_app, Hidle, calls_of_others by discriminate.
      reflexivity.
Qed.

Lemma accept_loop_waits_for_no_handler_witness :
  exists k,
    status (run friendly (repeat 0%nat k) boot) = Running
    /\ List.length (handed (trace (run friendly (repeat 0%nat k) boot))) = 3%nat
    /\ forall g, calls_of (S g) (trace (run friendly (repeat 0%nat k) boot)) = [].
Proof.
  apply (accept_loop_waits_for_no_handler friendly 3).
  split; [|split].
  - intros tr network address. exists 3%nat. reflexivity.
  - intros tr l. exists (List.length tr). reflexivity.
  - intros tr conn. reflexivity.
Defined.

Lemma step_trace_one env g s :
  trace (step env g s) = trace s \/ exists x, trace (step env g s) = trace s ++ [x].
Proof.
  unfold step. destruct (status s); [|left; reflexivity].
  destruct (nth_error (goroutines s) g) as [t|]; [|left; reflexivity].
  destruct (observe t) as [r|t'|X e k].
  - destruct g; left; reflexivity.
  - left. reflexivity.
  - destruct (respond env (trace s) e) as [c [x|]]; right; eexists; reflexivity.
Qed.

(** What comes first in the trace of a run is the trace of a run. *)
Lemma prefix_reachable env sch : forall tr1 tr2,
  trace (run env sch boot) = tr1 ++ tr2 ->
  exists sch1, trace (run env sch1 boot) = tr1.
Proof.
  induction sch as [|g sch IH] using rev_ind; intros tr1 tr2 H.
  - exists []. destruct tr1; [reflexivity | discriminate H].
  - rewrite run_snoc in H.
    destruct (step_trace_one env g (run env sch boot)) as [Heq|[x Heq]];
      rewrite Heq in H.
    + apply (IH tr1 tr2 H).
    + destruct tr2 as [|y tr2 _] using rev_ind.
      * exists (sch ++ [g]). rewrite run_snoc, Heq, H. apply app_nil_r.
      * rewrite app_assoc in H. apply app_inj_tail in H. destruct H as [H _].
        apply (IH tr1 tr2 H).
Qed.

Lemma main_served_conn conns calls t conn :
  main_at conns calls t -> In conn conns ->
  exists l, In (CAccept l (inl conn)) calls /\ In (waiting conn) calls
            /\ In (CGo conn) calls.
Proof.
  intros Hm Hin.
  assert (Hr : forall l0, In (CAccept l0 (inl conn)) (rounds l0 conns)
                          /\ In (waiting conn) (rounds l0 conns)
                          /\ In (CGo conn) (rounds l0 conns)).
  { intros l0. unfold rounds. rewrite !in_flat_map.
    repeat split; exists conn; (split; [exact Hin|]); simpl; auto. }
  destruct Hm as [t H0 H|t H0 H|r0 t H0 H|e t H0|l0 t H|l0 r0 t H|l0 e t|l0 c t H];
    try (subst conns; destruct Hin);
    exists l0; destruct (Hr l0) as [Ha [Hw Hg]];
    repeat split; rewrite !in_app_iff; auto.
Qed.

(** X17. A handler makes no call before it is started: every call of a
    goroutine other than [main] comes, in the trace, after [main] accepted
    the connection of that goroutine, logged it and handed it over with
    [go]. *)
Theorem handler_starts_after_go
    (env : Env) (sch : list nat) (tr1 tr2 : Trace) (g : nat) (c : Call) :
  trace (run env sch boot) = tr1 ++ (S g, c) :: tr2 ->
  exists conn l,
    nth_error (handed tr1) g = Some conn
    /\ In (0%nat, CAccept l (inl conn)) tr1
    /\ In (0%nat, CInfo "connection waiting for accept. " [("conn", VConn conn)]) tr1
    /\ In (0%nat, CGo conn) tr1.
Proof.
  intros H.
  change (tr1 ++ (S g, c) :: tr2) with (tr1 ++ [(S g, c)] ++ tr2) in H.
  rewrite app_assoc in H.
  destruct (prefix_reachable env sch _ _ H) as [sch1 H1].
  assert (Hin : In (S g, c) (trace (run env sch1 boot)))
    by (rewrite H1; apply in_or_app; right; left; reflexivity).
  destruct (reached_call env sch1 g c Hin) as [conn [t [Hg [_ Hh]]]].
  apply calls_of_In in Hin.
  pose proof (handler_keeps_to_conn _ _ _ _ Hh Hin) as Hown.
  assert (Hhanded : handed (trace (run env sch1 boot)) = handed tr1).
  { rewrite H1, handed_app. destruct c; try discriminate Hown; apply app_nil_r. }
  destruct (inv_main _ _ (Inv_run env sch1)) as [t0 [_ Hm]].
  rewrite Hhanded in Hm, Hg. rewrite H1, calls_of_snoc in Hm. simpl in Hm.
  destruct (main_served_conn _ _ _ conn Hm (nth_error_In _ _ Hg)) as [l [Ha [Hw Hgo]]].
  exists conn, l. split; [exact Hg|].
  repeat split; apply calls_of_In; assumption.
Qed.

Lemma handler_starts_after_go_witness :
  exists conn l,
    nth_error (handed (firstn 8 (trace (run friendly (first_go ++ [0; 1; 0; 1]%nat) boot)))) 0
    = Some conn
    /\ In (0%nat, CAccept l (inl conn))
          (firstn 8 (trace (run friendly (first_go ++ [0; 1; 0; 1]%nat) boot)))
    /\ In (0%nat, CInfo "connection waiting for accept. " [("conn", VConn conn)])
          (firstn 8 (trace (run friendly (first_go ++ [0; 1; 0; 1]%nat) boot)))
    /\ In (0%nat, CGo conn)
          (firstn 8 (trace (run friendly (first_go ++ [0; 1; 0; 1]%nat) boot))).
Proof.
  apply (handler_starts_after_go friendly (first_go ++ [0; 1; 0; 1]%nat)
           (firstn 8 (trace (run friendly (first_go ++ [0; 1; 0; 1]%nat) boot)))
           [] 0%nat (CInfo "number of bytes4" [])).
  reflexivity.
Defined.

End ServerMore.

(** * The properties of the sales ratio *)

Module MockingSpec.
Import Mocking.

(** [TestCalculateSalesRate] expects "3.00" of the mock, and [main] prints
    the same rate for [mongoDb]. *)
Example TestCalculateSalesRate now :
  calculateSalesRatio now mkMockShopDB = Returned ("3.00", None).
Proof. reflexivity. Qed.

Example main_rate now :
  calculateSalesRatio now mkMongoDb = Returned ("3.00", None).
Proof. reflexivity. Qed.

Example float64_exact : float64 9007199254740992 = 9007199254740992.
Proof. reflexivity. Qed.

Example float64_tie_to_even :
  float64 9007199254740993 = 9007199254740992
  /\ float64 9007199254740995 = 9007199254740996.
Proof. split; reflexivity. Qed.

Example float64_maxInt : float64 maxInt = 9223372036854775808.
Proof. reflexivity. Qed.

(** The one quotient that does not fit wraps around and does not panic. *)
Example quo_minInt : quo minInt (-1) = Returned minInt.
Proof. reflexivity. Qed.

Example quo_truncates : quo (-7) 2 = Returned (-3) /\ quo 1000 333 = Returned 3.
Proof. split; reflexivity. Qed.

(** C9. When [CountCustomers] or [CountSales] returns a non-nil error,
    [calculateSalesRatio] returns the empty string with a nil error: the
    caller cannot see that a count failed. *)
Theorem calculateSalesRatio_hides_errors
    (M : Type) (SM : ShopModel M) (now : Time) (shopModel : M) :
  snd (CountCustomers shopModel (Add now (-24 * Hour))) <> None
  \/ snd (CountSales shopModel (Add now (-24 * Hour))) <> None ->
  calculateSalesRatio now shopModel = Returned ("", None).
Proof.
  intros H. unfold calculateSalesRatio.
  destruct (CountCustomers shopModel (Add now (-24 * Hour))) as [customer [e|]];
    [reflexivity|].
  destruct (CountSales shopModel (Add now (-24 * Hour))) as [sales [e|]];
    [reflexivity|].
  simpl in H. destruct H as [H|H]; congruence.
Qed.

Lemma calculateSalesRatio_hides_errors_witness :
  calculateSalesRatio 1700000000000000000 unreachable = Returned ("", None).
Proof.
  apply (calculateSalesRatio_hides_errors ShopDB ShopDB_ShopModel
           1700000000000000000 unreachable).
  left. simpl. discriminate.
Defined.

(** C10. When [CountCustomers] succeeds and [CountSales] returns 0 with a
    nil error, the division [customer/sales] has a zero divisor and
    [calculateSalesRatio] panics. *)
Theorem calculateSalesRatio_divides_by_zero
    (M : Type) (SM : ShopModel M) (now : Time) (shopModel : M) (customer : int) :
  CountCustomers shopModel (Add now (-24 * Hour)) = (customer, None) ->
  CountSales shopModel (Add now (-24 * Hour)) = (0, None) ->
  quo customer 0 = Panicked "runtime error: integer divide by zero"
  /\ calculateSalesRatio now shopModel =
     Panicked "runtime error: integer divide by zero".
Proof.
  intros Hc Hs. split; [reflexivity|].
  unfold calculateSalesRatio. rewrite Hc, Hs. reflexivity.
Qed.

Lemma calculateSalesRatio_divides_by_zero_witness :
  quo 12 0 = Panicked "runtime error: integer divide by zero"
  /\ calculateSalesRatio 1700000000000000000 no_sales =
     Panicked "runtime error: integer divide by zero".
Proof.
  apply (calculateSalesRatio_divides_by_zero ShopDB ShopDB_ShopModel
           1700000000000000000 no_sales 12); reflexivity.
Defined.

End MockingSpec.

(** * More on the sales ratio *)

Module MockingMore.
Import Mocking.

Lemma wrap_small z : - 2 ^ 63 <= z < 2 ^ 63 -> wrap z = z.
Proof. intros H. unfold wrap. rewrite Z.mod_small; lia. Qed.

Lemma float64_small q : Z.abs q < 2 ^ 53 -> float64 q = q.
Proof.
  intros H. unfold float64.
  destruct (Z.leb_spec (Z.log2 (Z.abs q) + 1 - 53) 0) as [_|Hgt]; [reflexivity|].
  exfalso. destruct (Z.eq_dec (Z.abs q) 0) as [H0|Hne].
  - rewrite H0 in Hgt. simpl in Hgt. lia.
  - assert (Hpos : 0 < Z.abs q) by lia.
    apply (Z.log2_lt_pow2 _ 53 Hpos) in H. lia.
Qed.

Lemma quot_bound a b : b <> 0 -> Z.abs (Z.quot a b) <= Z.abs a.
Proof.
  intros Hb. rewrite <- Z.quot_abs by exact Hb.
  rewrite Z.quot_div_nonneg by lia.
  apply Z.div_le_upper_bound; nia.
Qed.

(** The result when both counts succeed and the divisor is not zero. *)
Lemma ratio_of_counts (M : Type) (SM : ShopModel M) (now : Time) (shopModel : M)
    (customer sales : int) :
  CountCustomers shopModel (Add now (-24 * Hour)) = (customer, None) ->
  CountSales shopModel (Add now (-24 * Hour)) = (sales, None) ->
  Z.abs customer < 2 ^ 53 -> sales <> 0 ->
  calculateSalesRatio now shopModel =
  Returned ((Itoa (Z.quot customer sales) ++ ".00")%string, None).
Proof.
  intros Hc Hs Hsmall Hnz. unfold calculateSalesRatio, quo. rewrite Hc, Hs.
  destruct (Z.eqb_spec sales 0) as [H0|_]; [contradiction|].
  pose proof (quot_bound customer sales Hnz) as Hq.
  rewrite wrap_small by lia. rewrite float64_small by lia. reflexivity.
Qed.

(** X13. [calculateSalesRatio] never returns a non-nil error: when it
    returns, whatever the two counts returned, the error is nil, so that
    the test of the error by its callers never fires. *)
Theorem calculateSalesRatio_error_is_nil
    (M : Type) (SM : ShopModel M) (now : Time) (shopModel : M)
    (ratio : string) (err : option error) :
  calculateSalesRatio now shopModel = Returned (ratio, err) -> err = None.
Proof.
  unfold calculateSalesRatio, quo.
  destruct (CountCustomers shopModel (Add now (-24 * Hour))) as [customer [e|]];
    [intros H; inversion H; reflexivity|].
  destruct (CountSales shopModel (Add now (-24 * Hour))) as [sales [e|]];
    [intros H; inversion H; reflexivity|].
  destruct (sales =? 0); intros H; inversion H; reflexivity.
Qed.

Lemma calculateSalesRatio_error_is_nil_witness : @None error = None.
Proof.
  apply (calculateSalesRatio_error_is_nil mongoDb mongoDb_ShopModel
           1700000000000000000 mkMongoDb "3.00" None).
  reflexivity.
Defined.


(** X15. When both counts succeed, the count of sales is not 0 and the
    count of customers is below 2^53 in absolute value, the ratio returned
    is the quotient of the integer division of customers by sales,
    truncated towards zero, printed with the two decimals [.00]: the
    fraction is lost before the conversion to a float. *)
Theorem calculateSalesRatio_is_a_whole_number
    (M : Type) (SM : ShopModel M) (now : Time) (shopModel : M) (customer sales : int) :
  CountCustomers shopModel (Add now (-24 * Hour)) = (customer, None) ->
  CountSales shopModel (Add now (-24 * Hour)) = (sales, None) ->
  Z.abs customer < 2 ^ 53 -> sales <> 0 ->
  calculateSalesRatio now shopModel =
  Returned ((Itoa (Z.quot customer sales) ++ ".00")%string, None).
Proof. apply ratio_of_counts. Qed.

Lemma calculateSalesRatio_is_a_whole_number_witness :
  calculateSalesRatio 1700000000000000000 mkMockShopDB =
  Returned ((Itoa (Z.quot 1000 333) ++ ".00")%string, None).
Proof.
  apply (calculateSalesRatio_is_a_whole_number MockShopDB MockShopDB_ShopModel
           1700000000000000000 mkMockShopDB 1000 333);
    [reflexivity | reflexivity | simpl; lia | discriminate].
Defined.

(** X16. When there are fewer customers than sales, the ratio returned is
    ["0.00"], however close the two counts are. *)
Theorem calculateSalesRatio_fewer_customers
    (M : Type) (SM : ShopModel M) (now : Time) (shopModel : M) (customer sales : int) :
  CountCustomers shopModel (Add now (-24 * Hour)) = (customer, None) ->
  CountSales shopModel (Add now (-24 * Hour)) = (sales, None) ->
  0 <= customer < sales -> customer < 2 ^ 53 ->
  calculateSalesRatio now shopModel = Returned ("0.00", None).
Proof.
  intros Hc Hs Hlt Hsmall.
  rewrite (ratio_of_counts M SM now shopModel customer sales Hc Hs) by lia.
  rewrite Z.quot_small by lia. reflexivity.
Qed.

Lemma calculateSalesRatio_fewer_customers_witness :
  calculateSalesRatio 1700000000000000000
    (mkShopDB (fun query _ =>
                 if String.eqb query "SELECT count(*) FROM customers WHERE timestamp > $1"
                 then inl 333 else inl 1000)) =
  Returned ("0.00", None).
Proof.
  apply (calculateSalesRatio_fewer_customers ShopDB ShopDB_ShopModel
           1700000000000000000 _ 333 1000);
    [reflexivity | reflexivity | lia | simpl; lia].
Defined.

End MockingMore.

(** * The properties of the scaling example *)

Module GenericsSpec.
Import Server Generics GoFacts Steps.
Local Open Scope list_scope.

(** [main] of the package: the scaled slice and what it prints of the
    scaled points. *)
Example main_scaled :
  scale Int32 [1; 2; 3; 4] 2 = [2; 4; 6; 8]
  /\ Points_String (updatedScale Int32 [1; 2; 3; 4] 2) =
     String "2" (String LF (String "4" (String LF
       (String "6" (String LF (String "8" (String LF EmptyString))))))).
Proof. split; reflexivity. Qed.

Lemma set_nth_middle {A} (done : list A) (x v : A) (rest : list A) :
  set_nth (List.length done) v (done ++ x :: rest) = done ++ v :: rest.
Proof. induction done as [|y done IH]; simpl; [reflexivity | rewrite IH; reflexivity]. Qed.

(** The loop, with [done] written and [rest] still zero. *)
Lemma scale_loop_spec E c : forall s done rest,
  List.length rest = List.length s ->
  scale_loop E c (List.length done) s (done ++ rest) = done ++ map (fun e => mul E e c) s.
Proof.
  induction s as [|e s IH]; intros done rest Hlen.
  - destruct rest; [reflexivity | discriminate Hlen].
  - destruct rest as [|x rest]; [discriminate Hlen|].
    simpl. rewrite set_nth_middle.
    change (done ++ mul E e c :: rest) with (done ++ [mul E e c] ++ rest).
    rewrite app_assoc.
    replace (S (List.length done)) with (List.length (done ++ [mul E e c]))
      by (rewrite length_app; simpl; lia).
    rewrite IH by (simpl in Hlen; lia).
    rewrite <- app_assoc. reflexivity.
Qed.

Lemma scale_map E s c : scale E s c = map (fun e => mul E e c) s.
Proof.
  unfold scale, make.
  apply (scale_loop_spec E c s [] (repeat 0 (List.length s))). apply repeat_length.
Qed.

Lemma pow_bits E : 2 ^ bits E = 2 * 2 ^ (bits E - 1) /\ 0 < 2 ^ (bits E - 1).
Proof. destruct E; split; reflexivity. Qed.

Lemma wrapT_in_range E z : in_range E (wrapT E z).
Proof.
  unfold in_range, wrapT. destruct (pow_bits E) as [H2 Hpos].
  pose proof (Z.mod_pos_bound z (2 ^ bits E)) as Hb.
  pose proof (Z.mod_pos_bound (z + 2 ^ (bits E - 1)) (2 ^ bits E)) as Hb'.
  destruct (signed E); lia.
Qed.

Lemma wrapT_small E z : in_range E z -> wrapT E z = z.
Proof.
  unfold in_range, wrapT. destruct (pow_bits E) as [H2 Hpos].
  destruct (signed E); intros H; rewrite Z.mod_small by lia; lia.
Qed.

(** The wrap-around only looks at the value modulo [2 ^ bits]. *)
Lemma wrapT_ext E x y :
  x mod 2 ^ bits E = y mod 2 ^ bits E -> wrapT E x = wrapT E y.
Proof.
  unfold wrapT. intros H. destruct (signed E); [|exact H].
  rewrite (Z.add_mod x), (Z.add_mod y), H by (destruct E; discriminate).
  reflexivity.
Qed.

Lemma wrapT_mod E x : wrapT E x mod 2 ^ bits E = x mod 2 ^ bits E.
Proof.
  unfold wrapT. destruct (signed E); [|apply Z.mod_mod; destruct E; discriminate].
  rewrite Zminus_mod_idemp_l. f_equal. lia.
Qed.

Lemma mul_assoc E e a b : mul E (mul E e a) b = mul E e (mul E a b).
Proof.
  unfold mul. apply wrapT_ext.
  assert (Hnz : 2 ^ bits E <> 0) by (destruct E; discriminate).
  rewrite (Z.mul_mod (wrapT E (e * a)) b), (Z.mul_mod e (wrapT E (a * b))) by exact Hnz.
  rewrite !wrapT_mod.
  rewrite <- Z.mul_mod, <- Z.mul_mod by exact Hnz.
  f_equal. ring.
Qed.

(** X8. [scale] and [updatedScale] return a new slice of the length of
    their argument whose element at each index is the product, at the
    element type and so with its wrap-around, of the element of the
    argument at that index and the factor. *)
Theorem scale_multiplies_each (E : Integer) (s : list Z) (c : Z) :
  scale E s c = map (fun e => wrapT E (e * c)) s
  /\ updatedScale E s c = map (fun e => wrapT E (e * c)) s
  /\ List.length (scale E s c) = List.length s.
Proof.
  split; [apply scale_map|]. split; [apply scale_map|].
  rewrite scale_map. apply length_map.
Qed.

(** X9. Whatever the slice and the factor, every element of the result of
    [scale] is in the range of the element type: a product that does not
    fit does not stop the program, it wraps around. *)
Theorem scale_stays_in_range (E : Integer) (s : list Z) (c : Z) :
  Forall (in_range E) (scale E s c).
Proof.
  rewrite scale_map. apply Forall_forall. intros x Hin.
  apply in_map_iff in Hin. destruct Hin as [e [<- _]]. apply wrapT_in_range.
Qed.

(** X10. Scaling twice is scaling once by the product of the factors, taken
    at the element type, overflow or not. *)
Theorem scale_composes (E : Integer) (s : list Z) (a b : Z) :
  scale E (scale E s a) b = scale E s (wrapT E (a * b)).
Proof.
  rewrite !scale_map, map_map. apply map_ext. intros e. apply mul_assoc.
Qed.

(** X11. Scaling by 1 a slice whose elements are values of the element type
    gives the same elements back. *)
Theorem scale_by_one (E : Integer) (s : list Z) :
  Forall (in_range E) s -> scale E s 1 = s.
Proof.
  intros H. rewrite scale_map. induction H as [|e s He Hs IH]; [reflexivity|].
  simpl. rewrite IH. unfold mul. rewrite Z.mul_1_r, wrapT_small by exact He.
  reflexivity.
Qed.

Lemma scale_by_one_witness : scale Int8 [-128; 0; 127] 1 = [-128; 0; 127].
Proof.
  apply (scale_by_one Int8 [-128; 0; 127]).
  repeat constructor; simpl; lia.
Defined.

Lemma string_app_assoc (a b c : string) : ((a ++ b) ++ c = a ++ (b ++ c))%string.
Proof. induction a as [|x a IH]; simpl; [reflexivity | rewrite IH; reflexivity]. Qed.

Lemma string_of_list_byte_app a b :
  string_of_list_byte (a ++ b) = (string_of_list_byte a ++ string_of_list_byte b)%string.
Proof.
  induction a as [|x a IH]; [reflexivity|].
  change (string_of_list_byte ((x :: a) ++ b))
    with (String (ascii_of_byte x) (string_of_list_byte (a ++ b))).
  rewrite IH. reflexivity.
Qed.

(** What [String] builds: each number and a newline. *)
Lemma Points_String_lines (p : Points) :
  Points_String p = fold_right (fun v acc => (Itoa v ++ String LF acc)%string) EmptyString p.
Proof.
  unfold Points_String, Builder_String, Builder_Write.
  assert (H : forall builder,
             string_of_list_byte
               (fold_left (fun builder v =>
                             (builder ++ bytes (Itoa v)) ++ bytes (String LF EmptyString))
                          p builder) =
             (string_of_list_byte builder ++
              fold_right (fun v acc => Itoa v ++ String LF acc) EmptyString p)%string).
  { induction p as [|v p IH]; intros builder; simpl.
    - clear. induction (string_of_list_byte builder) as [|x a IH]; simpl; congruence.
    - rewrite IH, !string_of_list_byte_app.
      unfold bytes. rewrite !string_of_list_byte_of_string.
      rewrite !string_app_assoc. reflexivity. }
  apply (H []).
Qed.

Lemma split_lines_line (x rest : string) :
  has_LF x = false ->
  split_lines (x ++ String LF rest) = x :: split_lines rest.
Proof.
  induction x as [|c x IH]; intros H.
  - reflexivity.
  - simpl in H. apply orb_false_elim in H. destruct H as [Hc Hx].
    simpl. rewrite Hc, (IH Hx). reflexivity.
Qed.

Lemma uint_no_LF u : has_LF (NilEmpty.string_of_uint u) = false.
Proof. induction u; simpl; auto. Qed.

Lemma Itoa_no_LF n : has_LF (Itoa n) = false.
Proof.
  unfold Itoa, NilZero.string_of_int, NilZero.string_of_uint.
  destruct (Z.to_int n) as [u|u]; destruct u; simpl; auto using uint_no_LF.
Qed.

(** X12. What [Points.String] prints reads back as the points: the text
    has one line for each point, in order, ended by a newline, and the
    number on the line is the point; so two lists of points that print the
    same are the same. *)
Theorem Points_String_reads_back (p q : Points) :
  read_points (Points_String p) = map Some p
  /\ (Points_String p = Points_String q -> p = q).
Proof.
  assert (H : forall r, read_points (Points_String r) = map Some r).
  { intros r. rewrite Points_String_lines. unfold read_points.
    induction r as [|v r IH]; [reflexivity|].
    simpl. rewrite split_lines_line by apply Itoa_no_LF.
    simpl. rewrite Atoi_Itoa, IH. reflexivity. }
  split; [apply H|].
  intros Heq. pose proof (H p) as Hp. rewrite Heq, H in Hp.
  clear - Hp. revert p Hp. induction q as [|v q IH]; intros [|w p] Hp;
    try discriminate Hp; [reflexivity|].
  simpl in Hp. inversion Hp. f_equal. apply IH. assumption.
Qed.

Lemma Points_String_reads_back_witness :
  read_points (Points_String [1; -2; 300]) = map Some [1; -2; 300]
  /\ [1; -2; 300] = [1; -2; 300].
Proof.
  destruct (Points_String_reads_back [1; -2; 300] [1; -2; 300]) as [H1 H2].
  split; [exact H1 | apply H2; reflexivity].
Defined.

End GenericsSpec.
